(** * The table migration engine of Snowflake_Migration (migration-module.py)

    A shallow embedding of [migrate_table], [get_tables],
    [migrate_all_tables] and [test_connection], and of the loop of the
    application over the selected tables, with the database connector as an explicit
    collaborator: a read-only source catalogue, a write-only target
    statement log, and a fault plan that lets any connector call raise. *)

From Stdlib Require Import String Ascii ZArith Lia Bool DecimalString.
From stdpp Require Import base list.

Local Open Scope Z_scope.

(** ** Strings: Python's [str.replace] *)

Module Str.

Local Open Scope string_scope.

(** [new.join(s)]-like interleaving: what [s.replace('', new)] yields. *)
Fixpoint intersperse (new s : string) : string :=
  match s with
  | EmptyString => new
  | String c s' => new ++ String c (intersperse new s')
  end.

(** Left-to-right scan of [s.replace(old, new)] for a non-empty [old]:
    at a position where [old] starts, [new] is emitted and the
    remaining [skip] characters of that occurrence are dropped, so the
    replaced occurrences never overlap. *)
Fixpoint replace_from (skip : nat) (old new s : string) : string :=
  match s with
  | EmptyString => EmptyString
  | String c s' =>
      match skip with
      | S k => replace_from k old new s'
      | O =>
          if String.prefix old s
          then new ++ replace_from (String.length old - 1) old new s'
          else String c (replace_from 0 old new s')
      end
  end.

Definition replace (old new s : string) : string :=
  match old with
  | EmptyString => intersperse new s
  | String _ _ => replace_from 0 old new s
  end.

Fixpoint drop (n : nat) (s : string) : string :=
  match n, s with
  | O, _ => s
  | S k, EmptyString => EmptyString
  | S k, String _ s' => drop k s'
  end.

(** [old in s] *)
Fixpoint contains (old s : string) : bool :=
  String.prefix old s ||
  match s with
  | EmptyString => false
  | String _ s' => contains old s'
  end.

(** [old] occurs somewhere in [s]. *)
Definition occurs_in (old s : string) : Prop :=
  exists p r, s = p ++ old ++ r.

(** The translation as the specification words it: every occurrence of
    [old], taken leftmost first, is replaced by [new]; all the other
    characters are carried through verbatim. *)
Inductive Requalified (old new : string) : string -> string -> Prop :=
| Rq_verbatim s :
    ~ occurs_in old s -> Requalified old new s s
| Rq_occurrence p r r' :
    (forall p' r0, p ++ old ++ r = p' ++ old ++ r0 ->
                   (String.length p <= String.length p')%nat) ->
    Requalified old new r r' ->
    Requalified old new (p ++ old ++ r) (p ++ new ++ r').

End Str.

(** ** Data model *)

(** A cell of a fetched row, as the connector hands it to Python. *)
Inductive cell :=
| VStr (s : string)
| VInt (z : Z)
| VNull.

Definition row := list cell.

(** The connection parameters: the six keys the callers always supply. *)
Record ConnectionProfile := {
  user : string;
  password : string;
  account : string;
  warehouse : string;
  database : string;
  schema : string
}.

(** One table of the source account. [t_rows] is the table's content in
    the order the source serves it; it does not change during a run (no
    concurrent writers). *)
Record TableData := {
  t_database : string;
  t_schema : string;
  t_name : string;
  t_ddl : string;
  t_columns : list string;
  t_rows : list row
}.

Definition Catalog := list TableData.

(** [time_taken]: the initial [0], then [round(stop - start, 2)] over two
    readings of the clock; the float arithmetic is left uninterpreted. *)
Inductive duration :=
| Untimed
| Elapsed (start stop : Z).

(** The [result] dictionary of [migrate_table]. *)
Record MigrationResult := {
  table : string;
  success : bool;
  rows_migrated : Z;
  error : option string;
  time_taken : duration
}.

(** ** The connector: statements, calls and their trace *)

Inductive side := Source | Target.

(** What the code asks of the source cursor. *)
Inductive query :=
| GetDDL (db sch tbl : string)
    (* SELECT GET_DDL('TABLE', 'db.sch.tbl') *)
| SelectTableNames (db sch : string)
    (* SELECT TABLE_NAME FROM db.INFORMATION_SCHEMA.TABLES WHERE TABLE_SCHEMA = 'sch' *)
| SelectColumnNames (db tbl sch : string)
    (* SELECT COLUMN_NAME FROM db.INFORMATION_SCHEMA.COLUMNS WHERE TABLE_NAME = 'tbl' AND TABLE_SCHEMA = 'sch' *)
| SelectRows (column_list db sch tbl : string) (limit offset : Z).
    (* SELECT column_list FROM db.sch.tbl LIMIT limit OFFSET offset *)

(** What the code sends through the target cursor. *)
Inductive stmt :=
| DropTableIfExists (db sch tbl : string)
    (* DROP TABLE IF EXISTS db.sch.tbl *)
| Statement (sql : string)
    (* a statement executed verbatim: the translated CREATE TABLE *)
| InsertInto (db sch tbl column_list : string) (placeholders : nat) (rows : list row).
    (* INSERT INTO db.sch.tbl (column_list) VALUES (%s, ..., %s), one row per parameter tuple *)

Inductive call :=
| Connect (s : side) (p : ConnectionProfile)
| NewCursor (s : side)
| ExecuteQuery (q : query)
| FetchOne
| FetchAll
| Execute (s : stmt)
| ExecuteMany (s : stmt)
| Commit
| CloseCursor (s : side)
| CloseConnection (s : side).

Inductive response :=
| Ok
| Produced (rows : list row)
| Failed (msg : string).

Definition event := (call * response)%type.

(** The local names that [finally] looks up in [locals()]. *)
Inductive local := source_conn | source_cursor | target_conn | target_cursor.

Definition local_eqb (a b : local) : bool :=
  match a, b with
  | source_conn, source_conn | source_cursor, source_cursor
  | target_conn, target_conn | target_cursor, target_cursor => true
  | _, _ => false
  end.

Definition conn_of (s : side) : local :=
  match s with Source => source_conn | Target => target_conn end.

Definition cursor_of (s : side) : local :=
  match s with Source => source_cursor | Target => target_cursor end.

(** ** Exceptions and control flow *)

Inductive exn := Exception (msg : string).

Definition str (e : exn) : string := let 'Exception msg := e in msg.

(** How a block of statements ends: it falls through with a value, raises,
    executes [return], or never ends. *)
Inductive outcome (R A : Type) :=
| Normal (a : A)
| Raise (e : exn)
| Return (r : R)
| Diverge.

Arguments Normal {R A} a.
Arguments Raise {R A} e.
Arguments Return {R A} r.
Arguments Diverge {R A}.

(** What one call of a function sees of the outside: the source account,
    which connector calls fail ([faults k] is the message raised by the
    [k]-th call made through the connections this call opens), and the
    readings [time.time()] gives. *)
Record Env := {
  catalog : Catalog;
  faults : nat -> option string;
  clock : nat -> Z
}.

(** The state a call works on. [committed] is what this call has made
    durable in the target account, [pending] what its target connection
    has executed since its last commit. The code never reads the target,
    so the target's earlier content is not part of the state. *)
Record Store := {
  calls : nat;
  ticks : nat;
  trace : list event;
  committed : list stmt;
  pending : list stmt;
  result_set : list row;
  bound : list local;
  result : MigrationResult
}.

Definition M (R A : Type) : Type := Env -> Store -> outcome R A * Store.

Definition ret {R A} (a : A) : M R A := fun _ st => (Normal a, st).

Definition bind {R A B} (m : M R A) (k : A -> M R B) : M R B :=
  fun env st =>
    match m env st with
    | (Normal a, st') => k a env st'
    | (Raise e, st') => (Raise e, st')
    | (Return r, st') => (Return r, st')
    | (Diverge, st') => (Diverge, st')
    end.

Definition raise {R A} (msg : string) : M R A :=
  fun _ st => (Raise (Exception msg), st).

Definition return_ {R A} (r : R) : M R A := fun _ st => (Return r, st).

Definition diverge {R A} : M R A := fun _ st => (Diverge, st).

Declare Scope py_scope.
Delimit Scope py_scope with py.
Notation "x <- m ;; k" := (bind m (fun x => k))
  (at level 100, m at next level, right associativity) : py_scope.
Notation "m ;; k" := (bind m (fun _ => k))
  (at level 100, right associativity) : py_scope.

(** [try: body  except Exception as e: handler e] *)
Definition try_except {R A} (body : M R A) (handler : exn -> M R A) : M R A :=
  fun env st =>
    match body env st with
    | (Raise e, st') => handler e env st'
    | other => other
    end.

(** [try: body  finally: fin]. The [finally] block runs however [body]
    ended; when it ends by [return] or by raising, that replaces the way
    [body] ended, a pending exception included. *)
Definition try_finally {R A B} (body : M R A) (fin : M R B) : M R A :=
  fun env st =>
    match body env st with
    | (Diverge, st') => (Diverge, st')
    | (o, st') =>
        match fin env st' with
        | (Normal _, st'') => (o, st'')
        | (Raise e, st'') => (Raise e, st'')
        | (Return r, st'') => (Return r, st'')
        | (Diverge, st'') => (Diverge, st'')
        end
    end.

(** The same statement when the [finally] block ends with [return]: it
    never falls through, so nothing of the way [body] ended is left. *)
Definition try_finally_return {R A B} (body : M R A) (fin : M R Empty_set) : M R B :=
  fun env st =>
    match body env st with
    | (Diverge, st') => (Diverge, st')
    | (_, st') =>
        match fin env st' with
        | (Normal v, _) => match v with end
        | (Raise e, st'') => (Raise e, st'')
        | (Return r, st'') => (Return r, st'')
        | (Diverge, st'') => (Diverge, st'')
        end
    end.

(** A function call: the body runs to its [return]; an exception leaves
    the call. A body of type [M R Empty_set] cannot fall off its end. *)
Inductive completion (R : Type) :=
| Returned (r : R)
| Raised (e : exn)
| Diverged.

Arguments Returned {R} r.
Arguments Raised {R} e.
Arguments Diverged {R}.

Definition run {R} (body : M R Empty_set) (env : Env) (st : Store)
  : completion R * Store :=
  match body env st with
  | (Normal v, _) => match v with end
  | (Raise e, st') => (Raised e, st')
  | (Return r, st') => (Returned r, st')
  | (Diverge, st') => (Diverged, st')
  end.

(** ** Store updates *)

Definition set_bound (b : list local) (st : Store) : Store :=
  {| calls := calls st; ticks := ticks st; trace := trace st;
     committed := committed st; pending := pending st;
     result_set := result_set st; bound := b; result := result st |}.

Definition set_result_set (rs : list row) (st : Store) : Store :=
  {| calls := calls st; ticks := ticks st; trace := trace st;
     committed := committed st; pending := pending st;
     result_set := rs; bound := bound st; result := result st |}.

Definition set_pending (p : list stmt) (st : Store) : Store :=
  {| calls := calls st; ticks := ticks st; trace := trace st;
     committed := committed st; pending := p;
     result_set := result_set st; bound := bound st; result := result st |}.

Definition set_committed (c : list stmt) (st : Store) : Store :=
  {| calls := calls st; ticks := ticks st; trace := trace st;
     committed := c; pending := pending st;
     result_set := result_set st; bound := bound st; result := result st |}.

Definition set_result (r : MigrationResult) (st : Store) : Store :=
  {| calls := calls st; ticks := ticks st; trace := trace st;
     committed := committed st; pending := pending st;
     result_set := result_set st; bound := bound st; result := r |}.

(** One more connector call, with what came of it. *)
Definition record (c : call) (r : response) (st : Store) : Store :=
  {| calls := S (calls st); ticks := ticks st; trace := trace st ++ [(c, r)];
     committed := committed st; pending := pending st;
     result_set := result_set st; bound := bound st; result := result st |}.

(** A call that cannot fail ([close]) leaves a trace and no more. *)
Definition note (c : call) (st : Store) : Store :=
  {| calls := calls st; ticks := ticks st; trace := trace st ++ [(c, Ok)];
     committed := committed st; pending := pending st;
     result_set := result_set st; bound := bound st; result := result st |}.

Definition tick (st : Store) : Store :=
  {| calls := calls st; ticks := S (ticks st); trace := trace st;
     committed := committed st; pending := pending st;
     result_set := result_set st; bound := bound st; result := result st |}.

Definition modify {R} (f : Store -> Store) : M R unit :=
  fun _ st => (Normal tt, f st).

(** The frame of a fresh call: nothing bound, nothing done. [result] is
    assigned by the first statements of the function. *)
Definition blank : MigrationResult :=
  {| table := EmptyString; success := false; rows_migrated := 0;
     error := None; time_taken := Untimed |}.

Definition new_frame : Store :=
  {| calls := 0; ticks := 0; trace := []; committed := []; pending := [];
     result_set := []; bound := []; result := blank |}.

(** ** The source account answers queries *)

Definition in_schema (db sch : string) (t : TableData) : bool :=
  String.eqb (t_database t) db && String.eqb (t_schema t) sch.

Definition is_table (db sch tbl : string) (t : TableData) : bool :=
  in_schema db sch t && String.eqb (t_name t) tbl.

Definition find_table (cat : Catalog) (db sch tbl : string) : option TableData :=
  List.find (is_table db sch tbl) cat.

(** The rows a query produces, or the message of the error the source
    raises: an object that does not exist, a negative LIMIT or OFFSET.
    Names are compared as they are written. *)
Definition answer (cat : Catalog) (q : query) : string + list row :=
  match q with
  | GetDDL db sch tbl =>
      match find_table cat db sch tbl with
      | Some t => inr [[VStr (t_ddl t)]]
      | None => inl "Object does not exist or not authorized."%string
      end
  | SelectTableNames db sch =>
      inr (List.map (fun t => [VStr (t_name t)]) (List.filter (in_schema db sch) cat))
  | SelectColumnNames db tbl sch =>
      match find_table cat db sch tbl with
      | Some t => inr (List.map (fun c => [VStr c]) (t_columns t))
      | None => inr []
      end
  | SelectRows _ db sch tbl limit offset =>
      match find_table cat db sch tbl with
      | Some t =>
          if (limit <? 0) || (offset <? 0)
          then inl "Invalid LIMIT or OFFSET."%string
          else inr (take (Z.to_nat limit) (drop (Z.to_nat offset) (t_rows t)))
      | None => inl "Object does not exist or not authorized."%string
      end
  end.

(** ** Connector calls *)

Local Open Scope py_scope.

(** A call through the connector: it raises when the fault plan says so,
    and otherwise does what the databases make of it. *)
Definition attempt {R} (c : call) (r : response) : M R unit :=
  fun env st =>
    match faults env (calls st) with
    | Some msg => (Raise (Exception msg), record c (Failed msg) st)
    | None => (Normal tt, record c r st)
    end.

Definition assign {R} (x : local) : M R unit :=
  modify (fun st => set_bound (x :: bound st) st).

(** [x_conn = snowflake.connector.connect], called on the parameters. *)
Definition connect {R} (s : side) (p : ConnectionProfile) : M R unit :=
  attempt (Connect s p) Ok ;; assign (conn_of s).

(** [x_cursor = x_conn.cursor()] *)
Definition cursor {R} (s : side) : M R unit :=
  attempt (NewCursor s) Ok ;; assign (cursor_of s).

(** [source_cursor.execute(query)] *)
Definition execute_query {R} (q : query) : M R unit :=
  fun env st =>
    match faults env (calls st) with
    | Some msg => (Raise (Exception msg), record (ExecuteQuery q) (Failed msg) st)
    | None =>
        match answer (catalog env) q with
        | inl msg => (Raise (Exception msg), record (ExecuteQuery q) (Failed msg) st)
        | inr rows =>
            (Normal tt, set_result_set rows (record (ExecuteQuery q) (Produced rows) st))
        end
    end.

(** [source_cursor.fetchone()]: the next row, or [None]. *)
Definition fetchone {R} : M R (option row) :=
  attempt FetchOne Ok ;;
  fun _ st => (Normal (head (result_set st)), set_result_set (tail (result_set st)) st).

(** [source_cursor.fetchall()] *)
Definition fetchall {R} : M R (list row) :=
  attempt FetchAll Ok ;;
  fun _ st => (Normal (result_set st), set_result_set [] st).

(** [target_cursor.execute(statement)] *)
Definition execute {R} (s : stmt) : M R unit :=
  attempt (Execute s) Ok ;;
  modify (fun st => set_pending (pending st ++ [s]) st).

(** [target_cursor.executemany(insert_query, rows)] *)
Definition executemany {R} (s : stmt) : M R unit :=
  attempt (ExecuteMany s) Ok ;;
  modify (fun st => set_pending (pending st ++ [s]) st).

(** [target_conn.commit()] *)
Definition commit {R} : M R unit :=
  attempt Commit Ok ;;
  modify (fun st => set_pending [] (set_committed (committed st ++ pending st) st)).

(** [if 'x' in locals(): x.close()]. Closing does not raise; closing the
    target connection drops what it had not committed. *)
Definition in_locals (x : local) (st : Store) : bool :=
  existsb (local_eqb x) (bound st).

Definition close_cursor_if_bound {R} (s : side) : M R unit :=
  modify (fun st =>
    if in_locals (cursor_of s) st then note (CloseCursor s) st else st).

Definition close_conn_if_bound {R} (s : side) : M R unit :=
  modify (fun st =>
    if in_locals (conn_of s) st
    then match s with
         | Source => note (CloseConnection s) st
         | Target => set_pending [] (note (CloseConnection s) st)
         end
    else st).

(** [time.time()] *)
Definition time {R} : M R Z :=
  fun env st => (Normal (clock env (ticks st)), tick st).

(** ** Python values *)

(** [x[0]] for what [fetchone()] returned. *)
Definition first_of_fetched {R} (x : option row) : M R cell :=
  match x with
  | None => raise "'NoneType' object is not subscriptable"
  | Some [] => raise "tuple index out of range"
  | Some (c :: _) => ret c
  end.

(** [row[0]] *)
Definition first_of_row {R} (r : row) : M R cell :=
  match r with
  | [] => raise "tuple index out of range"
  | c :: _ => ret c
  end.

(** [[row[0] for row in rows]] *)
Fixpoint first_column {R} (rows : list row) : M R (list cell) :=
  match rows with
  | [] => ret []
  | r :: rows' =>
      c <- first_of_row r ;;
      cs <- first_column rows' ;;
      ret (c :: cs)
  end.

(** [x.replace(old, new)]: a method of strings only. *)
Definition str_replace {R} (x : cell) (old new : string) : M R string :=
  match x with
  | VStr s => ret (Str.replace old new s)
  | VInt _ => raise "'int' object has no attribute 'replace'"
  | VNull => raise "'NoneType' object has no attribute 'replace'"
  end.

(** [', '.join(columns)]: every item has to be a string. *)
Fixpoint join_strings (sep : string) (xs : list string) : string :=
  match xs with
  | [] => EmptyString
  | [x] => x
  | x :: xs' => (x ++ sep ++ join_strings sep xs')%string
  end.

Fixpoint all_strings (xs : list cell) : option (list string) :=
  match xs with
  | [] => Some []
  | VStr s :: xs' =>
      match all_strings xs' with
      | Some ss => Some (s :: ss)
      | None => None
      end
  | _ :: _ => None
  end.

Definition join {R} (sep : string) (xs : list cell) : M R string :=
  match all_strings xs with
  | Some ss => ret (join_strings sep ss)
  | None => raise "sequence item: expected str instance"
  end.

(** The qualifier [f"{params['database']}.{params['schema']}"]. *)
Definition qualifier (p : ConnectionProfile) : string :=
  (database p ++ "." ++ schema p)%string.

(** ** [migrate_table] *)

Definition with_rows_migrated (n : Z) (r : MigrationResult) : MigrationResult :=
  {| table := table r; success := success r; rows_migrated := n;
     error := error r; time_taken := time_taken r |}.

Definition with_success (b : bool) (r : MigrationResult) : MigrationResult :=
  {| table := table r; success := b; rows_migrated := rows_migrated r;
     error := error r; time_taken := time_taken r |}.

Definition with_error (e : option string) (r : MigrationResult) : MigrationResult :=
  {| table := table r; success := success r; rows_migrated := rows_migrated r;
     error := e; time_taken := time_taken r |}.

Definition with_time_taken (d : duration) (r : MigrationResult) : MigrationResult :=
  {| table := table r; success := success r; rows_migrated := rows_migrated r;
     error := error r; time_taken := d |}.

(** [result["rows_migrated"] = n], and the like. *)
Definition set_rows_migrated {R} (n : Z) : M R unit :=
  modify (fun st => set_result (with_rows_migrated n (result st)) st).

Definition set_success {R} (b : bool) : M R unit :=
  modify (fun st => set_result (with_success b (result st)) st).

Definition set_error {R} (e : option string) : M R unit :=
  modify (fun st => set_result (with_error e (result st)) st).

Definition set_time_taken {R} (d : duration) : M R unit :=
  modify (fun st => set_result (with_time_taken d (result st)) st).

Definition get_result {R} : M R MigrationResult :=
  fun _ st => (Normal (result st), st).

(** The [while True] loop that copies the rows. [fuel] bounds the number
    of rounds of the model; [copy_loop_terminates] shows that the bound
    [migrate_table] passes is never reached. *)
Fixpoint copy_loop (fuel : nat) (tbl : string)
    (source_params target_params : ConnectionProfile) (batch_size : Z)
    (columns : list cell) (column_list : string)
    (offset total_rows : Z) : M MigrationResult unit :=
  match fuel with
  | O => diverge
  | S fuel' =>
      execute_query
        (SelectRows column_list (database source_params) (schema source_params)
                    tbl batch_size offset) ;;
      rows <- fetchall ;;
      match rows with
      | [] => ret tt
      | _ :: _ =>
          executemany
            (InsertInto (database target_params) (schema target_params) tbl
                        column_list (length columns) rows) ;;
          commit ;;
          let offset := offset + batch_size in
          let total_rows := total_rows + Z.of_nat (length rows) in
          set_rows_migrated total_rows ;;
          copy_loop fuel' tbl source_params target_params batch_size
                    columns column_list offset total_rows
      end
  end.

(** Rounds the loop can take at most: one per row, and the empty one. *)
Definition round_bound (cat : Catalog) (p : ConnectionProfile) (tbl : string) : nat :=
  match find_table cat (database p) (schema p) tbl with
  | Some t => S (length (t_rows t))
  | None => 1
  end.

(** The [try] block. *)
Definition migrate_table_body (tbl : string)
    (source_params target_params : ConnectionProfile) (batch_size : Z)
  : M MigrationResult unit :=
  connect Source source_params ;;
  cursor Source ;;
  connect Target target_params ;;
  cursor Target ;;
  execute_query (GetDDL (database source_params) (schema source_params) tbl) ;;
  fetched <- fetchone ;;
  create_table_statement <- first_of_fetched fetched ;;
  create_table_statement <-
    str_replace create_table_statement
                (qualifier source_params) (qualifier target_params) ;;
  execute (DropTableIfExists (database target_params) (schema target_params) tbl) ;;
  execute (Statement create_table_statement) ;;
  commit ;;
  execute_query
    (SelectColumnNames (database source_params) tbl (schema source_params)) ;;
  fetched <- fetchall ;;
  columns <- first_column fetched ;;
  column_list <- join ", " columns ;;
  (fun env =>
     copy_loop (round_bound (catalog env) source_params tbl) tbl
               source_params target_params batch_size columns column_list 0 0 env) ;;
  set_success true.

(** The dictionary [result] starts as. *)
Definition initial_result (tbl : string) : MigrationResult :=
  {| table := tbl; success := false; rows_migrated := 0;
     error := None; time_taken := Untimed |}.

Definition migrate_table (tbl : string)
    (source_params target_params : ConnectionProfile) (batch_size : Z)
  : M MigrationResult Empty_set :=
  start_time <- time ;;
  modify (set_result (initial_result tbl)) ;;
  try_finally_return
    (try_except
       (migrate_table_body tbl source_params target_params batch_size)
       (fun e => set_error (Some (str e))))
    (close_cursor_if_bound Source ;;
     close_conn_if_bound Source ;;
     close_cursor_if_bound Target ;;
     close_conn_if_bound Target ;;
     now <- time ;;
     set_time_taken (Elapsed start_time now) ;;
     r <- get_result ;;
     return_ r).

(** ** [get_tables] *)

(** [f"{x}"]: how a cell reads once interpolated. TABLE_NAME is a string
    column, so the names listed are strings as they are. *)
Definition render (c : cell) : string :=
  match c with
  | VStr s => s
  | VInt z => DecimalString.NilZero.string_of_int (Z.to_int z)
  | VNull => "None"%string
  end.

(** [tables] is the value of the [try] block: the handler always raises,
    so the function reaches [return tables] only after the assignment. *)
Definition get_tables (conn_params : ConnectionProfile) : M (list string) Empty_set :=
  tables <-
    try_finally
      (try_except
         (connect Source conn_params ;;
          cursor Source ;;
          execute_query
            (SelectTableNames (database conn_params) (schema conn_params)) ;;
          fetched <- fetchall ;;
          names <- first_column fetched ;;
          ret (List.map render names))
         (fun e => raise ("Error fetching tables: " ++ str e)%string))
      (close_cursor_if_bound Source ;;
       close_conn_if_bound Source) ;;
  return_ tables.

(** ** [migrate_all_tables]: the thread pool *)

(** Everything outside the orchestrator. Each task opens connections of
    its own, so the fault plan and the clock readings are given per task,
    by the position at which the task was submitted. [completes k] picks,
    among the work items that worker threads are executing, the one that
    finishes next: the completion order is the scheduler's choice. *)
Record World := {
  source_account : Catalog;
  listing_faults : nat -> option string;
  task_faults : nat -> nat -> option string;
  task_clock : nat -> nat -> Z;
  completes : nat -> nat
}.

Definition listing_env (w : World) : Env :=
  {| catalog := source_account w; faults := listing_faults w; clock := fun _ => 0 |}.

Definition task_env (w : World) (future : nat) : Env :=
  {| catalog := source_account w; faults := task_faults w future;
     clock := task_clock w future |}.

(** A work item: the future it will resolve, and the table it was
    submitted for. *)
Definition work_item := (nat * string)%type.

(** The executor. [queue] holds the work items no worker has picked up
    yet, oldest first; [running] those being executed, at most
    [max_workers] of them. [futures] is indexed by submission order;
    [finished] lists the futures in the order they completed; [target] is
    what the tasks have committed to the target account so far. *)
Record Pool := {
  queue : list work_item;
  running : list work_item;
  futures : list (option (completion MigrationResult));
  finished : list nat;
  target : list stmt
}.

Definition new_pool : Pool :=
  {| queue := []; running := []; futures := []; finished := []; target := [] |}.

(** [executor.submit(migrate_table, table, ...)]: a new future; the item
    starts at once while a worker is free, else it waits in the queue. *)
Definition submit (max_workers : Z) (tbl : string) (p : Pool) : nat * Pool :=
  let future := length (futures p) in
  if Z.of_nat (length (running p)) <? max_workers
  then (future,
        {| queue := queue p; running := running p ++ [(future, tbl)];
           futures := futures p ++ [None]; finished := finished p;
           target := target p |})
  else (future,
        {| queue := queue p ++ [(future, tbl)]; running := running p;
           futures := futures p ++ [None]; finished := finished p;
           target := target p |}).

(** The dictionary comprehension
    [{executor.submit(migrate_table, table, ...): table for table in tables}]:
    one entry per submission, in submission order (the keys are distinct
    future objects, and a dictionary keeps insertion order). *)
Fixpoint submit_all (max_workers : Z) (tables : list string) (p : Pool)
  : list (nat * string) * Pool :=
  match tables with
  | [] => ([], p)
  | tbl :: tables' =>
      let '(future, p1) := submit max_workers tbl p in
      let '(future_to_table, p2) := submit_all max_workers tables' p1 in
      ((future, tbl) :: future_to_table, p2)
  end.

(** A worker runs [migrate_table] for its item, in a frame of its own. *)
Definition run_item (w : World) (source_params target_params : ConnectionProfile)
    (batch_size : Z) (item : work_item) : completion MigrationResult * Store :=
  run (migrate_table (snd item) source_params target_params batch_size)
      (task_env w (fst item)) new_frame.

(** One work item finishes: its future is resolved, what it committed is
    in the target, and its worker takes the oldest queued item. *)
Definition complete_one (w : World) (source_params target_params : ConnectionProfile)
    (batch_size : Z) (choice : nat) (p : Pool) : Pool :=
  let i := (choice mod length (running p))%nat in
  match running p !! i with
  | None => p
  | Some item =>
      let '(c, st) := run_item w source_params target_params batch_size item in
      {| queue := tail (queue p);
         running := delete i (running p) ++ take 1 (queue p);
         futures := <[fst item := Some c]> (futures p);
         finished := finished p ++ [fst item];
         target := target p ++ committed st |}
  end.

(** The workers run until [n] more items have finished. *)
Fixpoint drain (w : World) (source_params target_params : ConnectionProfile)
    (batch_size : Z) (n k : nat) (p : Pool) : Pool :=
  match n with
  | O => p
  | S n' =>
      drain w source_params target_params batch_size n' (S k)
            (complete_one w source_params target_params batch_size (completes w k) p)
  end.

(** [for future in future_to_table: results.append(future.result())].
    [future.result()] gives what the task returned, raises what it raised,
    and does not come back for a task that never finishes. *)
Fixpoint collect (p : Pool) (future_to_table : list (nat * string))
    (results : list MigrationResult) : completion (list MigrationResult) :=
  match future_to_table with
  | [] => Returned results
  | (future, _) :: rest =>
      match futures p !! future with
      | Some (Some (Returned r)) => collect p rest (results ++ [r])
      | Some (Some (Raised e)) => Raised e
      | Some (Some Diverged) | Some None | None => Diverged
      end
  end.

(** All the tasks are submitted before the first one finishes; a task
    that finishes earlier resolves its future to the same result. *)
Definition migrate_all_tables (w : World)
    (source_params target_params : ConnectionProfile)
    (batch_size max_workers : Z) : completion (list MigrationResult) * Pool :=
  match run (get_tables source_params) (listing_env w) new_frame with
  | (Raised e, _) => (Raised e, new_pool)
  | (Diverged, _) => (Diverged, new_pool)
  | (Returned tables, _) =>
      if max_workers <=? 0
      then (Raised (Exception "max_workers must be greater than 0"), new_pool)
      else
        let '(future_to_table, p) := submit_all max_workers tables new_pool in
        let p := drain w source_params target_params batch_size
                       (length tables) 0 p in
        (collect p future_to_table [], p)
  end.

(** ** What a run leaves behind *)

(** [l] cut into consecutive pieces of [n] items, the last one shorter
    when [n] does not divide the length. *)
Fixpoint chunks_upto {A} (fuel n : nat) (l : list A) : list (list A) :=
  match fuel, l with
  | S fuel', _ :: _ => take n l :: chunks_upto fuel' n (drop n l)
  | _, _ => []
  end.

Definition chunks {A} (n : nat) (l : list A) : list (list A) :=
  chunks_upto (length l) n l.

(** The extract rounds of a trace: for each SELECT ... LIMIT ... OFFSET
    that the source answered, the limit and offset asked for and the
    number of rows that came back. *)
Definition select_round (e : event) : option (Z * Z * nat) :=
  match e with
  | (ExecuteQuery (SelectRows _ _ _ _ limit offset), Produced rows) =>
      Some (limit, offset, length rows)
  | _ => None
  end.

Definition select_rounds (tr : list event) : list (Z * Z * nat) :=
  omap select_round tr.

(** The insert rounds of a trace: the batch of each [executemany] that
    went through. *)
Definition insert_round (e : event) : option (list row) :=
  match e with
  | (ExecuteMany (InsertInto _ _ _ _ _ rows), Ok) => Some rows
  | _ => None
  end.

Definition insert_rounds (tr : list event) : list (list row) :=
  omap insert_round tr.

(** The statements a trace sent to the target verbatim, whether the
    target took them or not. *)
Definition verbatim (e : event) : option string :=
  match e with
  | (Execute (Statement sql), _) => Some sql
  | _ => None
  end.

Definition statements_sent (tr : list event) : list string :=
  omap verbatim tr.

(** The rows of table [db.sch.tbl] after a log of committed statements.
    A verbatim statement is a table definition: it adds no rows. *)
Definition apply_stmt (db sch tbl : string) (rows : list row) (s : stmt) : list row :=
  match s with
  | DropTableIfExists d c t =>
      if String.eqb d db && String.eqb c sch && String.eqb t tbl then [] else rows
  | Statement _ => rows
  | InsertInto d c t _ _ batch =>
      if String.eqb d db && String.eqb c sch && String.eqb t tbl
      then rows ++ batch else rows
  end.

Definition table_rows (db sch tbl : string) (log : list stmt) : list row :=
  fold_left (apply_stmt db sch tbl) log [].

(** The statement of one insert round. *)
Definition insert_of (target_params : ConnectionProfile) (tbl column_list : string)
    (placeholders : nat) (batch : list row) : stmt :=
  InsertInto (database target_params) (schema target_params) tbl
             column_list placeholders batch.

(** [ceil(R / B)] *)
Definition ceil_div (R B : Z) : Z := (R + B - 1) / B.

(** The names of the results, in the order of the results. *)
Definition result_tables (rs : list MigrationResult) : list string :=
  List.map table rs.

(** The batches a statement log inserts, in order. *)
Definition inserted_batch (s : stmt) : option (list row) :=
  match s with
  | InsertInto _ _ _ _ _ rows => Some rows
  | _ => None
  end.

Definition batches_inserted (log : list stmt) : list (list row) :=
  omap inserted_batch log.

(** The rows of the source table a task is to copy (none when the source
    has no such table). *)
Definition source_rows (cat : Catalog) (p : ConnectionProfile) (tbl : string) : list row :=
  match find_table cat (database p) (schema p) tbl with
  | Some t => t_rows t
  | None => []
  end.

(** The connector signalled nothing: no call of the trace failed. *)
Definition no_failure (tr : list event) : Prop :=
  Forall (fun ev => match snd ev with Failed _ => False | _ => True end) tr.

(** The tables of the schema a profile names, as the catalogue lists them. *)
Definition list_tables (cat : Catalog) (p : ConnectionProfile) : list string :=
  List.map t_name (List.filter (in_schema (database p) (schema p)) cat).

(** What the task submitted at position [future] for table [tbl] hands to
    its future. *)
Definition task_result (w : World) (source_params target_params : ConnectionProfile)
    (batch_size : Z) (future : nat) (tbl : string) : MigrationResult :=
  match fst (run_item w source_params target_params batch_size (future, tbl)) with
  | Returned r => r
  | _ => blank
  end.

(** The same world under another scheduler. *)
Definition with_schedule (s : nat -> nat) (w : World) : World :=
  {| source_account := source_account w;
     listing_faults := listing_faults w;
     task_faults := task_faults w;
     task_clock := task_clock w;
     completes := s |}.

(** The work items of a pool that have not finished. *)
Definition unfinished (p : Pool) : list work_item := running p ++ queue p.

(** The store in which the [try] block of [migrate_table] starts. *)
Definition entry (tbl : string) : Store :=
  set_result (initial_result tbl) (tick new_frame).

(** The result a work item hands to its future. *)
Definition item_result (w : World) (source_params target_params : ConnectionProfile)
    (batch_size : Z) (item : work_item) : MigrationResult :=
  task_result w source_params target_params batch_size (fst item) (snd item).

(** The futures of a run, as [future_to_table] holds them: the table at
    position [i] of the listing under future [i]. *)
Definition numbered (tables : list string) : list work_item :=
  imap (fun i tbl => (i, tbl)) tables.

(** The results of a run of the orchestrator, or none when it raised. *)
Definition results_of (x : completion (list MigrationResult) * Pool)
  : list MigrationResult :=
  match fst x with
  | Returned rs => rs
  | _ => []
  end.

(** A worker is busy whenever work is waiting. *)
Definition staffed (p : Pool) : Prop := running p = [] -> queue p = [].

(** What holds of the pool from the last submission on: every item
    submitted has a future; it either is still to finish, or has resolved
    its future to what its task came to; nothing else is in the pool. *)
Definition tracks (w : World) (source_params target_params : ConnectionProfile)
    (batch_size : Z) (future_to_table : list work_item) (p : Pool) : Prop :=
  staffed p /\
  (forall item, item ∈ unfinished p -> item ∈ future_to_table) /\
  (forall item, item ∈ future_to_table -> (fst item < length (futures p))%nat) /\
  (forall item, item ∈ future_to_table ->
     item ∈ unfinished p \/
     futures p !! fst item
     = Some (Some (fst (run_item w source_params target_params batch_size item)))).

(** ** The example scenario of the specification

    Tables ORDERS (five rows) and CUSTOMERS (no rows), batch size 2. *)

Module Scenario.

Local Open Scope string_scope.

Definition source_profile : ConnectionProfile :=
  {| user := "loader"; password := "secret"; account := "org-src";
     warehouse := "COMPUTE_WH"; database := "SRC"; schema := "PUBLIC" |}.

Definition target_profile : ConnectionProfile :=
  {| user := "loader"; password := "secret"; account := "org-tgt";
     warehouse := "COMPUTE_WH"; database := "TGT"; schema := "STAGE" |}.

Definition order_row (id : Z) : row := [VInt id; VStr "open"].

Definition orders : TableData :=
  {| t_database := "SRC"; t_schema := "PUBLIC"; t_name := "ORDERS";
     t_ddl := "create or replace TABLE SRC.PUBLIC.ORDERS (ID NUMBER, STATUS VARCHAR)";
     t_columns := ["ID"; "STATUS"];
     t_rows := List.map order_row [1; 2; 3; 4; 5]%Z |}.

(** The definition of CUSTOMERS does not name its schema. *)
Definition customers : TableData :=
  {| t_database := "SRC"; t_schema := "PUBLIC"; t_name := "CUSTOMERS";
     t_ddl := "create or replace TABLE CUSTOMERS (ID NUMBER)";
     t_columns := ["ID"]; t_rows := [] |}.

Definition source : Catalog := [orders; customers].

(** No connector call fails. *)
Definition quiet : Env :=
  {| catalog := source; faults := fun _ => None; clock := fun n => Z.of_nat n |}.

(** The insert of the second round fails. *)
Definition breaks_in_round_two : Env :=
  {| catalog := source;
     faults := fun k => if Nat.eqb k 17 then Some "insert failed" else None;
     clock := fun n => Z.of_nat n |}.

(** The run of [migrate_table] in an environment: what it returned, and
    the store it left. *)
Definition returned (x : completion MigrationResult * Store) : MigrationResult :=
  match fst x with
  | Returned r => r
  | _ => blank
  end.

Definition migrate (env : Env) (tbl : string) (batch_size : Z)
  : completion MigrationResult * Store :=
  run (migrate_table tbl source_profile target_profile batch_size) env new_frame.

(** Both tables, two workers, and CUSTOMERS finishes first. ORDERS meets
    the failing insert. *)
Definition world : World :=
  {| source_account := source;
     listing_faults := fun _ => None;
     task_faults := fun future k =>
       if Nat.eqb future 0 && Nat.eqb k 17 then Some "insert failed" else None;
     task_clock := fun future n => Z.of_nat (10 * future + n);
     completes := fun _ => 1%nat |}.

(** The same, with the tasks finishing in the order they were submitted. *)
Definition world_in_order : World :=
  {| source_account := source;
     listing_faults := fun _ => None;
     task_faults := task_faults world;
     task_clock := task_clock world;
     completes := fun _ => 0%nat |}.

End Scenario.

(** ** [test_connection] *)

Local Open Scope py_scope.

(** [cursor.close()] and [conn.close()], called outright. As in the
    [finally] blocks, closing does not raise. *)
Definition close_cursor {R} (s : side) : M R unit :=
  modify (note (CloseCursor s)).

Definition close_conn {R} (s : side) : M R unit :=
  modify (note (CloseConnection s)).

(** [cursor.execute("SELECT 1")]: a statement that reads and writes
    nothing; the connector can fail on it as on any call. *)
Definition select_one {R} : M R unit :=
  attempt (Execute (Statement "SELECT 1")) Ok.

(** The function is used on the source and on the target profile alike:
    [s] says which side the parameters are for. *)
Definition test_connection (s : side) (conn_params : ConnectionProfile)
  : M bool Empty_set :=
  try_except
    (connect s conn_params ;;
     cursor s ;;
     select_one ;;
     close_cursor s ;;
     close_conn s ;;
     return_ true)
    (fun _ => return_ false).

(** ** Connections and cursors in a trace *)

(** What a call opened, when it went through. *)
Definition acquired (e : event) : option local :=
  match e with
  | (Connect s _, Ok) => Some (conn_of s)
  | (NewCursor s, Ok) => Some (cursor_of s)
  | _ => None
  end.

(** What a call closed. *)
Definition released (e : event) : option local :=
  match e with
  | (CloseCursor s, _) => Some (cursor_of s)
  | (CloseConnection s, _) => Some (conn_of s)
  | _ => None
  end.

Definition opened (tr : list event) : list local := omap acquired tr.

Definition closed (tr : list event) : list local := omap released tr.

(** The statements a trace sent through the target cursor, whether they
    went through or not. *)
Definition target_statement (e : event) : option stmt :=
  match e with
  | (Execute s, _) | (ExecuteMany s, _) => Some s
  | _ => None
  end.

Definition sent_to_target (tr : list event) : list stmt := omap target_statement tr.

(** The calls of the [finally] block of [migrate_table], for the names
    [b] that are in [locals()]. *)
Definition close_events (b : list local) : list event :=
  (if existsb (local_eqb source_cursor) b then [(CloseCursor Source, Ok)] else []) ++
  (if existsb (local_eqb source_conn) b then [(CloseConnection Source, Ok)] else []) ++
  (if existsb (local_eqb target_cursor) b then [(CloseCursor Target, Ok)] else []) ++
  (if existsb (local_eqb target_conn) b then [(CloseConnection Target, Ok)] else []).

(** A block that opens and closes nothing and binds no name. *)
Definition steady {R A} (m : M R A) : Prop :=
  forall env st,
    bound (snd (m env st)) = bound st /\
    exists tr,
      trace (snd (m env st)) = trace st ++ tr /\
      opened tr = [] /\ closed tr = [].

(** ** The target account after a run of the orchestrator *)

(** Whether a statement addresses table [db.sch.tbl]: a drop or an
    insert does when it names it; the definition of a table adds no rows
    to any. *)
Definition touches (db sch tbl : string) (s : stmt) : bool :=
  match s with
  | DropTableIfExists d c t => String.eqb d db && String.eqb c sch && String.eqb t tbl
  | Statement _ => false
  | InsertInto d c t _ _ _ => String.eqb d db && String.eqb c sch && String.eqb t tbl
  end.

(** What the task of future [i] commits to the target. *)
Definition log_at (w : World) (source_params target_params : ConnectionProfile)
    (batch_size : Z) (tables : list string) (i : nat) : list stmt :=
  match tables !! i with
  | Some tbl => committed (snd (run_item w source_params target_params batch_size (i, tbl)))
  | None => []
  end.

(** No more workers are busy than the pool has, and none idles while
    work waits. *)
Definition within (max_workers : Z) (p : Pool) : Prop :=
  Z.of_nat (length (running p)) <= max_workers /\
  (queue p <> [] -> Z.of_nat (length (running p)) = max_workers).

(** ** The loop of the application over the selected tables *)

(** [for i, table in enumerate(selected_tables)]: one call of
    [migrate_table] after the other, the result of each appended to
    [results]. The calls are numbered as they are made; what the page
    shows meanwhile has no part in the results. *)
Fixpoint migrate_selected (w : World) (source_params target_params : ConnectionProfile)
    (batch_size : Z) (i : nat) (selected_tables : list string)
    (results : list MigrationResult) : completion (list MigrationResult) :=
  match selected_tables with
  | [] => Returned results
  | tbl :: rest =>
      match fst (run (migrate_table tbl source_params target_params batch_size)
                     (task_env w i) new_frame) with
      | Returned result =>
          migrate_selected w source_params target_params batch_size (S i) rest
                           (results ++ [result])
      | Raised e => Raised e
      | Diverged => Diverged
      end
  end.

(** [sum(1 for r in results if r["success"])] *)
Definition success_count (results : list MigrationResult) : Z :=
  fold_right Z.add 0 (List.map (fun _ => 1) (List.filter success results)).

(** [sum(r["rows_migrated"] for r in results if r["success"])] *)
Definition total_rows (results : list MigrationResult) : Z :=
  fold_right Z.add 0 (List.map rows_migrated (List.filter success results)).

(** [len(results) - success_count] *)
Definition failed_count (results : list MigrationResult) : Z :=
  Z.of_nat (length results) - success_count results.

(** [[(r["table"], r["error"]) for r in results if not r["success"]]] *)
Definition error_details (results : list MigrationResult)
  : list (string * option string) :=
  List.map (fun r => (table r, error r))
           (List.filter (fun r => negb (success r)) results).

(** ** Two more runs of the example *)

(** Nothing fails; CUSTOMERS finishes before ORDERS. *)
Definition calm_world : World :=
  {| source_account := Scenario.source;
     listing_faults := fun _ => None;
     task_faults := fun _ _ => None;
     task_clock := fun _ n => Z.of_nat n;
     completes := fun _ => 1%nat |}.

(** The query that lists the tables times out. *)
Definition unlisted_world : World :=
  {| source_account := Scenario.source;
     listing_faults := fun k => if Nat.eqb k 2 then Some "timeout"%string else None;
     task_faults := fun _ _ => None;
     task_clock := fun _ n => Z.of_nat n;
     completes := fun _ => 0%nat |}.
(** ** Facts about [str.replace] *)

Module StrFacts.

Import Str.
Local Open Scope string_scope.

Lemma append_nil_r s : s ++ EmptyString = s.
Proof. induction s as [|c s IH]; simpl; [reflexivity | now rewrite IH]. Qed.

Lemma append_assoc s1 s2 s3 : (s1 ++ s2) ++ s3 = s1 ++ s2 ++ s3.
Proof. induction s1 as [|c s1 IH]; simpl; [reflexivity | now rewrite IH]. Qed.

Lemma length_append s1 s2 :
  String.length (s1 ++ s2) = (String.length s1 + String.length s2)%nat.
Proof. induction s1 as [|c s1 IH]; simpl; [reflexivity | now rewrite IH]. Qed.

Lemma drop_append s r : drop (String.length s) (s ++ r) = r.
Proof. induction s as [|c s IH]; simpl; [reflexivity | exact IH]. Qed.

Lemma length_drop n s : (String.length (drop n s) <= String.length s)%nat.
Proof.
  revert s; induction n as [|n IH]; intros [|c s]; simpl; try lia.
  specialize (IH s); lia.
Qed.

Lemma prefix_spec old s :
  String.prefix old s = true <-> exists r, s = old ++ r.
Proof.
  revert s; induction old as [|a old IH]; intros s.
  - destruct s; simpl; split; eauto.
  - destruct s as [|c s]; simpl.
    + split; [discriminate | intros [r Hr]; discriminate].
    + destruct (ascii_dec a c) as [->|Hne].
      * rewrite IH. split; intros [r Hr]; exists r; congruence.
      * split; [discriminate | intros [r Hr]; congruence].
Qed.

Lemma replace_from_skip old new skip s :
  replace_from skip old new s = replace_from 0 old new (drop skip s).
Proof.
  revert s; induction skip as [|k IH]; intros s; [reflexivity|].
  destruct s as [|c s]; simpl; [reflexivity | apply IH].
Qed.

(** The scan, one occurrence at a time. *)
Lemma replace_from_hit old new r :
  old <> EmptyString ->
  replace_from 0 old new (old ++ r) = new ++ replace_from 0 old new r.
Proof.
  intros Hne. destruct old as [|a old]; [congruence|].
  assert (Hp : String.prefix (String a old) (String a old ++ r) = true)
    by (apply prefix_spec; eauto).
  change (String a old ++ r) with (String a (old ++ r)) in *.
  cbn [replace_from]. rewrite Hp.
  rewrite replace_from_skip. cbn [String.length].
  replace (S (String.length old) - 1)%nat with (String.length old) by lia.
  now rewrite drop_append.
Qed.

Lemma replace_from_miss old new c s :
  String.prefix old (String c s) = false ->
  replace_from 0 old new (String c s) = String c (replace_from 0 old new s).
Proof. intros Hp. cbn [replace_from]. now rewrite Hp. Qed.

Lemma occurs_in_cons old c s :
  String.prefix old (String c s) = false ->
  occurs_in old (String c s) -> occurs_in old s.
Proof.
  intros Hp (p & r & E). destruct p as [|c' p].
  - simpl in E. assert (String.prefix old (String c s) = true)
      by (apply prefix_spec; eauto). congruence.
  - simpl in E. injection E as _ E. now exists p, r.
Qed.

Lemma Requalified_cons old new c s t :
  String.prefix old (String c s) = false ->
  Requalified old new s t ->
  Requalified old new (String c s) (String c t).
Proof.
  intros Hp H. destruct H as [s Hno | p r r' Hleft Hr].
  - apply Rq_verbatim. intros Hocc. apply Hno. eapply occurs_in_cons; eauto.
  - apply (Rq_occurrence old new (String c p) r r'); [|exact Hr].
    intros p' r0 E. destruct p' as [|c' p'].
    + simpl in E. assert (String.prefix old (String c (p ++ old ++ r)) = true)
        by (apply prefix_spec; exists r0; exact E). congruence.
    + simpl in E. injection E as _ E. specialize (Hleft _ _ E). simpl. lia.
Qed.

Lemma replace_from_Requalified old new s :
  old <> EmptyString -> Requalified old new s (replace_from 0 old new s).
Proof.
  intros Hne.
  remember (String.length s) as n eqn:Hn. revert s Hn.
  induction n as [n IH] using lt_wf_ind. intros s Hn.
  destruct s as [|c s].
  - simpl. apply Rq_verbatim. intros (p & r & E).
    destruct p; simpl in E; [|discriminate].
    destruct old; [congruence | discriminate].
  - destruct (String.prefix old (String c s)) eqn:Hp.
    + apply prefix_spec in Hp as [r Hr]. rewrite Hr.
      rewrite replace_from_hit by exact Hne.
      apply (Rq_occurrence old new EmptyString r); [simpl; lia|].
      apply (IH (String.length r)); [|reflexivity].
      subst n. rewrite Hr, length_append.
      destruct old; [congruence | simpl; lia].
    + rewrite replace_from_miss by exact Hp.
      apply Requalified_cons; [exact Hp|].
      apply (IH (String.length s)); [subst n; simpl; lia | reflexivity].
Qed.

Lemma replace_from_absent old new s :
  ~ occurs_in old s -> replace_from 0 old new s = s.
Proof.
  induction s as [|c s IH]; intros Hno; [reflexivity|].
  destruct (String.prefix old (String c s)) eqn:Hp.
  - exfalso. apply Hno. apply prefix_spec in Hp as [r Hr].
    exists EmptyString, r. exact Hr.
  - rewrite replace_from_miss by exact Hp. f_equal. apply IH.
    intros (p & r & E). apply Hno. exists (String c p), r. simpl. now rewrite E.
Qed.

Lemma contains_spec old s : contains old s = true <-> occurs_in old s.
Proof.
  induction s as [|c s IH].
  - cbn [contains]. rewrite orb_false_r, prefix_spec. split.
    + intros [r Hr]. exists EmptyString, r. exact Hr.
    + intros (p & r & E). destruct p; [exists r; exact E | discriminate].
  - cbn [contains]. rewrite orb_true_iff, IH, prefix_spec. split.
    + intros [[r Hr]|(p & r & E)].
      * exists EmptyString, r. exact Hr.
      * exists (String c p), r. simpl. now rewrite E.
    + intros (p & r & E). destruct p as [|c' p].
      * left. exists r. exact E.
      * right. simpl in E. injection E as _ E. now exists p, r.
Qed.

(** The relation pins the translation down: it is what the scan computes. *)
Lemma replace_from_leftmost old new p r :
  old <> EmptyString ->
  (forall p' r0, p ++ old ++ r = p' ++ old ++ r0 ->
                 (String.length p <= String.length p')%nat) ->
  replace_from 0 old new (p ++ old ++ r) = p ++ new ++ replace_from 0 old new r.
Proof.
  intros Hne. induction p as [|c p IH]; intros Hleft.
  - simpl. apply replace_from_hit. exact Hne.
  - change (String c p ++ old ++ r) with (String c (p ++ old ++ r)).
    assert (Hp : String.prefix old (String c (p ++ old ++ r)) = false).
    { destruct (String.prefix old (String c (p ++ old ++ r))) eqn:Hp; [|reflexivity].
      apply prefix_spec in Hp as [r0 Hr0].
      specialize (Hleft EmptyString r0 Hr0). simpl in Hleft. lia. }
    rewrite replace_from_miss by exact Hp. simpl. f_equal. apply IH.
    intros p' r0 E.
    specialize (Hleft (String c p') r0). simpl in Hleft.
    rewrite E in Hleft. specialize (Hleft eq_refl). lia.
Qed.

Lemma Requalified_functional old new s t :
  old <> EmptyString -> Requalified old new s t -> t = replace_from 0 old new s.
Proof.
  intros Hne H. induction H as [s Hno | p r r' Hleft Hr IH].
  - symmetry. apply replace_from_absent. exact Hno.
  - rewrite replace_from_leftmost by assumption. now rewrite IH.
Qed.

Lemma replace_nonempty old new s :
  old <> EmptyString -> replace old new s = replace_from 0 old new s.
Proof. intros Hne. destruct old; [congruence | reflexivity]. Qed.

End StrFacts.

(** ** Facts about [chunks] *)

Lemma chunks_upto_enough {A} (n : nat) (fuel : nat) (l : list A) :
  (0 < n)%nat -> (length l <= fuel)%nat ->
  chunks_upto fuel n l = chunks_upto (length l) n l.
Proof.
  intros Hn. revert l. induction fuel as [fuel IH] using lt_wf_ind. intros l Hle.
  destruct l as [|x l]; [destruct fuel; reflexivity|].
  destruct fuel as [|fuel]; [simpl in Hle; lia|].
  cbn [chunks_upto length]. f_equal.
  assert (Hd : (length (drop n (x :: l)) <= length l)%nat)
    by (rewrite length_drop; simpl; lia).
  rewrite (IH fuel) by (simpl in Hle; lia).
  symmetry. apply (IH (length l)); [simpl in Hle; lia | exact Hd].
Qed.

Lemma chunks_nil {A} (n : nat) : chunks n (@nil A) = [].
Proof. reflexivity. Qed.

Lemma chunks_cons {A} (n : nat) (l : list A) :
  (0 < n)%nat -> l <> [] -> chunks n l = take n l :: chunks n (drop n l).
Proof.
  intros Hn Hl. destruct l as [|x l]; [congruence|].
  unfold chunks at 1. cbn [chunks_upto length]. f_equal.
  unfold chunks. apply chunks_upto_enough; [exact Hn|].
  rewrite length_drop. simpl. lia.
Qed.

Lemma concat_chunks {A} (n : nat) (l : list A) :
  (0 < n)%nat -> concat (chunks n l) = l.
Proof.
  intros Hn. remember (length l) as m eqn:Hm. revert l Hm.
  induction m as [m IH] using lt_wf_ind. intros l Hm.
  destruct l as [|x l]; [reflexivity|].
  rewrite chunks_cons by (auto; congruence). cbn [concat].
  rewrite (IH (length (drop n (x :: l)))); [apply take_drop| |reflexivity].
  subst m. rewrite length_drop. simpl. lia.
Qed.

Lemma chunks_nonempty {A} (n : nat) (l : list A) (c : list A) :
  (0 < n)%nat -> c ∈ chunks n l -> c <> [].
Proof.
  intros Hn. remember (length l) as m eqn:Hm. revert l Hm.
  induction m as [m IH] using lt_wf_ind. intros l Hm Hin.
  destruct l as [|x l]; [rewrite chunks_nil in Hin; inversion Hin|].
  rewrite chunks_cons in Hin by (auto; congruence).
  apply elem_of_cons in Hin as [->|Hin].
  - destruct n; [lia | discriminate].
  - eapply (IH (length (drop n (x :: l)))); [|reflexivity|exact Hin].
    subst m. rewrite length_drop. simpl. lia.
Qed.

Lemma ceil_div_small (R B : Z) : 0 < R <= B -> ceil_div R B = 1.
Proof.
  intros H. unfold ceil_div. symmetry. apply (Z.div_unique _ _ 1 (R - 1)); lia.
Qed.

Lemma ceil_div_0 (B : Z) : 0 < B -> ceil_div 0 B = 0.
Proof. intros H. unfold ceil_div. apply Z.div_small. lia. Qed.

Lemma ceil_div_step (R B : Z) : 0 < B -> ceil_div (R + B) B = ceil_div R B + 1.
Proof.
  intros H. unfold ceil_div.
  replace (R + B + B - 1) with (R + B - 1 + 1 * B) by lia.
  rewrite Z.div_add by lia. reflexivity.
Qed.

(** As many pieces as [ceil(len / n)]. *)
Lemma length_chunks {A} (n : nat) (l : list A) :
  (0 < n)%nat ->
  Z.of_nat (length (chunks n l)) = ceil_div (Z.of_nat (length l)) (Z.of_nat n).
Proof.
  intros Hn. remember (length l) as m eqn:Hm. revert l Hm.
  induction m as [m IH] using lt_wf_ind. intros l Hm.
  destruct l as [|x l].
  - subst m. simpl. rewrite ceil_div_0 by lia. reflexivity.
  - rewrite chunks_cons by (auto; congruence). cbn [length].
    rewrite Nat2Z.inj_succ.
    rewrite (IH (length (drop n (x :: l))) ltac:(subst m; rewrite length_drop; simpl; lia)
               _ eq_refl).
    rewrite length_drop. rewrite <- Hm.
    destruct (Nat.le_gt_cases m n) as [Hle|Hgt].
    + replace (m - n)%nat with 0%nat by lia.
      rewrite ceil_div_0 by lia. rewrite ceil_div_small; [reflexivity|].
      subst m. simpl length in *. lia.
    + replace (Z.of_nat m) with (Z.of_nat (m - n) + Z.of_nat n) by lia.
      rewrite ceil_div_step by lia. lia.
Qed.

(** Every piece but the last is full; the last one holds the remainder,
    or is full when there is none. *)
Lemma chunks_sizes {A} (n : nat) (l : list A) (k : nat) (c : list A) :
  (0 < n)%nat -> chunks n l !! k = Some c ->
  ((S k < length (chunks n l))%nat -> length c = n) /\
  (S k = length (chunks n l) ->
   Z.of_nat (length c) =
     if Z.of_nat (length l) mod Z.of_nat n =? 0 then Z.of_nat n
     else Z.of_nat (length l) mod Z.of_nat n).
Proof.
  intros Hn. remember (length l) as m eqn:Hm. revert l Hm k.
  induction m as [m IH] using lt_wf_ind. intros l Hm k Hk.
  destruct l as [|x l]; [rewrite chunks_nil in Hk; discriminate|].
  assert (Hne : x :: l <> []) by congruence.
  rewrite chunks_cons in Hk |- * by auto.
  assert (Hlt : (length (drop n (x :: l)) < m)%nat)
    by (subst m; rewrite length_drop; simpl; lia).
  destruct k as [|k].
  - cbn in Hk. injection Hk as <-. cbn [length]. split.
    + intros Hlen.
      destruct (decide (drop n (x :: l) = [])) as [E|E];
        [rewrite E, chunks_nil in Hlen; simpl in Hlen; lia|].
      rewrite length_take. apply Nat.min_l.
      destruct (Nat.le_gt_cases n (length (x :: l))); [assumption|].
      exfalso. apply E. apply drop_ge. lia.
    + intros Hlen.
      assert (Hd : drop n (x :: l) = []).
      { destruct (drop n (x :: l)) as [|y d] eqn:E; [reflexivity|].
        rewrite chunks_cons in Hlen by (auto; congruence). simpl in Hlen. lia. }
      assert (Hmn : (m <= n)%nat).
      { apply (f_equal length) in Hd. rewrite length_drop, <- Hm in Hd.
        change (length (@nil A)) with 0%nat in Hd. lia. }
      rewrite length_take, <- Hm, Nat.min_r by lia.
      destruct (decide (m = n)) as [->|Hneq].
      * rewrite Z_mod_same_full. reflexivity.
      * rewrite Z.mod_small by (subst m; simpl length in *; lia).
        destruct (Z.eqb_spec (Z.of_nat m) 0); [subst m; simpl in *; lia | reflexivity].
  - cbn in Hk. cbn [length].
    destruct (IH _ Hlt (drop n (x :: l)) eq_refl k Hk) as [H1 H2].
    split; [intros; apply H1; lia|].
    intros Hlen. rewrite H2 by lia.
    assert (Hmn : (n < m)%nat).
    { destruct (Nat.le_gt_cases m n) as [Hle|]; [|assumption].
      rewrite drop_ge in Hk by lia. rewrite chunks_nil in Hk. discriminate. }
    rewrite length_drop, <- Hm.
    replace (Z.of_nat m) with (Z.of_nat (m - n) + 1 * Z.of_nat n) by lia.
    rewrite Z.mod_add by lia. reflexivity.
Qed.

(** ** Stepping through a block *)

Section Steps.

Context {R B : Type}.
Implicit Types (env : Env) (st : Store).

Lemma bind_ret {A} (a : A) (k : A -> M R B) env st :
  bind (ret a) k env st = k a env st.
Proof. reflexivity. Qed.

Lemma bind_raise {A} (msg : string) (k : A -> M R B) env st :
  bind (raise msg) k env st = (Raise (Exception msg), st).
Proof. reflexivity. Qed.

Lemma bind_modify (f : Store -> Store) (k : unit -> M R B) env st :
  bind (modify f) k env st = k tt env (f st).
Proof. reflexivity. Qed.

Lemma bind_time (k : Z -> M R B) env st :
  bind time k env st = k (clock env (ticks st)) env (tick st).
Proof. reflexivity. Qed.

Lemma bind_bind {A A'} (m : M R A) (f : A -> M R A') (k : A' -> M R B) env st :
  bind (bind m f) k env st = bind m (fun a => bind (f a) k) env st.
Proof. unfold bind. destruct (m env st) as [[a|e|r|] st']; reflexivity. Qed.

Lemma bind_attempt (c : call) (r : response) (k : unit -> M R B) env st :
  bind (attempt c r) k env st =
    match faults env (calls st) with
    | Some msg => (Raise (Exception msg), record c (Failed msg) st)
    | None => k tt env (record c r st)
    end.
Proof. unfold bind, attempt. destruct (faults env (calls st)); reflexivity. Qed.

Lemma bind_connect (s : side) (p : ConnectionProfile) (k : unit -> M R B) env st :
  bind (connect s p) k env st =
    match faults env (calls st) with
    | Some msg => (Raise (Exception msg), record (Connect s p) (Failed msg) st)
    | None =>
        k tt env (set_bound (conn_of s :: bound st) (record (Connect s p) Ok st))
    end.
Proof.
  unfold connect. rewrite bind_bind, bind_attempt.
  destruct (faults env (calls st)); reflexivity.
Qed.

Lemma bind_cursor (s : side) (k : unit -> M R B) env st :
  bind (cursor s) k env st =
    match faults env (calls st) with
    | Some msg => (Raise (Exception msg), record (NewCursor s) (Failed msg) st)
    | None =>
        k tt env (set_bound (cursor_of s :: bound st) (record (NewCursor s) Ok st))
    end.
Proof.
  unfold cursor. rewrite bind_bind, bind_attempt.
  destruct (faults env (calls st)); reflexivity.
Qed.

Lemma bind_execute_query (q : query) (k : unit -> M R B) env st :
  bind (execute_query q) k env st =
    match faults env (calls st) with
    | Some msg => (Raise (Exception msg), record (ExecuteQuery q) (Failed msg) st)
    | None =>
        match answer (catalog env) q with
        | inl msg => (Raise (Exception msg), record (ExecuteQuery q) (Failed msg) st)
        | inr rows =>
            k tt env (set_result_set rows (record (ExecuteQuery q) (Produced rows) st))
        end
    end.
Proof.
  unfold bind, execute_query.
  destruct (faults env (calls st)); [reflexivity|].
  destruct (answer (catalog env) q); reflexivity.
Qed.

Lemma bind_fetchone (k : option row -> M R B) env st :
  bind fetchone k env st =
    match faults env (calls st) with
    | Some msg => (Raise (Exception msg), record FetchOne (Failed msg) st)
    | None =>
        k (head (result_set st)) env
          (set_result_set (tail (result_set st)) (record FetchOne Ok st))
    end.
Proof.
  unfold fetchone. rewrite bind_bind, bind_attempt.
  destruct (faults env (calls st)); reflexivity.
Qed.

Lemma bind_fetchall (k : list row -> M R B) env st :
  bind fetchall k env st =
    match faults env (calls st) with
    | Some msg => (Raise (Exception msg), record FetchAll (Failed msg) st)
    | None => k (result_set st) env (set_result_set [] (record FetchAll Ok st))
    end.
Proof.
  unfold fetchall. rewrite bind_bind, bind_attempt.
  destruct (faults env (calls st)); reflexivity.
Qed.

Lemma bind_execute (s : stmt) (k : unit -> M R B) env st :
  bind (execute s) k env st =
    match faults env (calls st) with
    | Some msg => (Raise (Exception msg), record (Execute s) (Failed msg) st)
    | None =>
        k tt env (set_pending (pending st ++ [s]) (record (Execute s) Ok st))
    end.
Proof.
  unfold execute. rewrite bind_bind, bind_attempt.
  destruct (faults env (calls st)); reflexivity.
Qed.

Lemma bind_executemany (s : stmt) (k : unit -> M R B) env st :
  bind (executemany s) k env st =
    match faults env (calls st) with
    | Some msg => (Raise (Exception msg), record (ExecuteMany s) (Failed msg) st)
    | None =>
        k tt env (set_pending (pending st ++ [s]) (record (ExecuteMany s) Ok st))
    end.
Proof.
  unfold executemany. rewrite bind_bind, bind_attempt.
  destruct (faults env (calls st)); reflexivity.
Qed.

Lemma bind_commit (k : unit -> M R B) env st :
  bind commit k env st =
    match faults env (calls st) with
    | Some msg => (Raise (Exception msg), record Commit (Failed msg) st)
    | None =>
        k tt env
          (set_pending []
             (set_committed (committed st ++ pending st) (record Commit Ok st)))
    end.
Proof.
  unfold commit. rewrite bind_bind, bind_attempt.
  destruct (faults env (calls st)); reflexivity.
Qed.

End Steps.

Lemma first_column_names {R} (names : list string) env st :
  @first_column R (List.map (fun c => [VStr c]) names) env st =
    (Normal (List.map VStr names), st).
Proof.
  induction names as [|c names IH]; [reflexivity|].
  cbn [List.map first_column first_of_row].
  rewrite bind_ret. unfold bind at 1. rewrite IH. reflexivity.
Qed.

Lemma all_strings_names (names : list string) :
  all_strings (List.map VStr names) = Some names.
Proof.
  induction names as [|c names IH]; [reflexivity|].
  cbn [List.map all_strings]. rewrite IH. reflexivity.
Qed.

(** ** The copy loop *)

Lemma with_rows_migrated_id (r : MigrationResult) :
  with_rows_migrated (rows_migrated r) r = r.
Proof. destruct r; reflexivity. Qed.

Lemma with_rows_migrated_twice (n m : Z) (r : MigrationResult) :
  with_rows_migrated n (with_rows_migrated m r) = with_rows_migrated n r.
Proof. reflexivity. Qed.

Lemma select_rounds_app (tr1 tr2 : list event) :
  select_rounds (tr1 ++ tr2) = select_rounds tr1 ++ select_rounds tr2.
Proof. apply omap_app. Qed.

Lemma insert_rounds_app (tr1 tr2 : list event) :
  insert_rounds (tr1 ++ tr2) = insert_rounds tr1 ++ insert_rounds tr2.
Proof. apply omap_app. Qed.

Lemma statements_sent_app (tr1 tr2 : list event) :
  statements_sent (tr1 ++ tr2) = statements_sent tr1 ++ statements_sent tr2.
Proof. apply omap_app. Qed.

Lemma take_nil_inv {A} (n : nat) (l : list A) :
  (0 < n)%nat -> take n l = [] -> l = [].
Proof. destruct n; [lia|]. destruct l; [reflexivity | discriminate]. Qed.

Ltac store_simpl :=
  cbn [calls ticks trace committed pending result_set bound result
       set_bound set_result_set set_pending set_committed set_result
       record note tick] in *.

Ltac sent_same :=
  store_simpl; rewrite ?statements_sent_app; cbn; rewrite ?app_nil_r; reflexivity.

Lemma copy_loop_spec tbl sp tp B columns cl t env :
  find_table (catalog env) (database sp) (schema sp) tbl = Some t ->
  forall fuel offset total st o st',
    pending st = [] ->
    rows_migrated (result st) = total ->
    (length (drop (Z.to_nat offset) (t_rows t)) < fuel)%nat ->
    copy_loop fuel tbl sp tp B columns cl offset total env st = (o, st') ->
    exists k,
      let rest := drop (Z.to_nat offset) (t_rows t) in
      let batches := take k (chunks (Z.to_nat B) rest) in
      committed st' =
        committed st ++ List.map (insert_of tp tbl cl (length columns)) batches /\
      result st' =
        with_rows_migrated (total + Z.of_nat (length (concat batches))) (result st) /\
      bound st' = bound st /\ ticks st' = ticks st /\
      statements_sent (trace st') = statements_sent (trace st) /\
      match o with
      | Normal _ =>
          pending st' = [] /\ 0 <= B /\
          (0 < B ->
           batches = chunks (Z.to_nat B) rest /\
           select_rounds (trace st') =
             select_rounds (trace st) ++
             imap (fun i b => (B, offset + Z.of_nat i * B, length b))
                  (chunks (Z.to_nat B) rest ++ [[]]) /\
           insert_rounds (trace st') =
             insert_rounds (trace st) ++ chunks (Z.to_nat B) rest)
      | Raise e => (exists j, faults env j = Some (str e)) \/ B < 0 \/ offset < 0
      | Return _ | Diverge => False
      end.
Proof.
  intros Hfind. induction fuel as [|fuel IH]; intros offset total st o st' Hpend Htot Hfuel Hrun.
  { lia. }
  assert (Hstop : forall st1 e,
            committed st1 = committed st -> result st1 = result st ->
            bound st1 = bound st -> ticks st1 = ticks st ->
            statements_sent (trace st1) = statements_sent (trace st) ->
            (exists j, faults env j = Some (str e)) \/ B < 0 \/ offset < 0 ->
            (Raise e, st1) = (o, st') ->
            exists k,
              let rest := drop (Z.to_nat offset) (t_rows t) in
              let batches := take k (chunks (Z.to_nat B) rest) in
              committed st' =
                committed st ++ List.map (insert_of tp tbl cl (length columns)) batches /\
              result st' =
                with_rows_migrated (total + Z.of_nat (length (concat batches))) (result st) /\
              bound st' = bound st /\ ticks st' = ticks st /\
              statements_sent (trace st') = statements_sent (trace st) /\
              match o with
              | Normal _ =>
                  pending st' = [] /\ 0 <= B /\
                  (0 < B ->
                   batches = chunks (Z.to_nat B) rest /\
                   select_rounds (trace st') =
                     select_rounds (trace st) ++
                     imap (fun i b => (B, offset + Z.of_nat i * B, length b))
                          (chunks (Z.to_nat B) rest ++ [[]]) /\
                   insert_rounds (trace st') =
                     insert_rounds (trace st) ++ chunks (Z.to_nat B) rest)
              | Raise e => (exists j, faults env j = Some (str e)) \/ B < 0 \/ offset < 0
              | Return _ | Diverge => False
              end).
  { intros st1 e Hc Hr Hb Ht Hs Hcause E. injection E as <- <-. exists 0%nat. cbn.
    rewrite Hc, Hr, Hb, Ht, Hs, app_nil_r, Z.add_0_r, <- Htot, with_rows_migrated_id.
    auto 10. }
  cbn [copy_loop] in Hrun.
  unfold bind at 1 in Hrun. unfold execute_query in Hrun.
  destruct (faults env (calls st)) as [msg|] eqn:F1; [eapply Hstop; [..|exact Hrun]; first [reflexivity | sent_same | left; eexists; eassumption]|].
  cbn [answer] in Hrun. rewrite Hfind in Hrun.
  destruct ((B <? 0) || (offset <? 0)) eqn:Hneg.
  { eapply Hstop; [..|exact Hrun]; try reflexivity; [sent_same|].
    right. apply orb_true_iff in Hneg as [H|H]; apply Z.ltb_lt in H; auto. }
  apply orb_false_elim in Hneg as [HB Hoff].
  apply Z.ltb_ge in HB, Hoff.
  set (rest := drop (Z.to_nat offset) (t_rows t)) in *.
  set (q := SelectRows cl (database sp) (schema sp) tbl B offset) in *.
  unfold bind at 1 in Hrun. unfold fetchall at 1 in Hrun.
  unfold bind at 1 in Hrun. unfold attempt at 1 in Hrun.
  cbn [calls set_result_set record] in Hrun.
  destruct (faults env (S (calls st))) as [msg|] eqn:F2; [eapply Hstop; [..|exact Hrun]; first [reflexivity | sent_same | left; eexists; eassumption]|].
  cbn [result_set set_result_set record] in Hrun.
  destruct (take (Z.to_nat B) rest) as [|r rows] eqn:Hrows.
  - (* the empty round: the loop ends *)
    cbv [ret] in Hrun. injection Hrun as <- <-. exists 0%nat. cbv zeta.
    rewrite take_0. store_simpl. cbn [concat length List.map].
    rewrite app_nil_r, Z.add_0_r, <- Htot, with_rows_migrated_id.
    do 4 (split; [reflexivity|]). split; [sent_same|]. split; [exact Hpend|].
    split; [exact HB|].
    intros HBpos. apply take_nil_inv in Hrows; [|lia].
    fold rest. rewrite Hrows, chunks_nil.
    split; [reflexivity|].
    rewrite !select_rounds_app, !insert_rounds_app. cbn.
    rewrite !app_nil_r, Z.add_0_r. split; reflexivity.
  - (* a batch: insert, commit, count, and go round again *)
    assert (HBpos : 0 < B) by (destruct (Z.to_nat B) eqn:E; [discriminate | lia]).
    assert (Hne : rest <> []) by (intros E; rewrite E, take_nil in Hrows; discriminate).
    set (batch := r :: rows) in *.
    unfold bind at 1 in Hrun. unfold executemany at 1 in Hrun.
    unfold bind at 1 in Hrun. unfold attempt at 1 in Hrun. store_simpl.
    destruct (faults env (S (S (calls st)))) as [msg|] eqn:F3;
      [eapply Hstop; [..|exact Hrun]; first [reflexivity | sent_same | left; eexists; eassumption]|].
    cbv [modify] in Hrun.
    unfold bind at 1 in Hrun. unfold commit at 1 in Hrun.
    unfold bind at 1 in Hrun. unfold attempt at 1 in Hrun. store_simpl.
    destruct (faults env (S (S (S (calls st))))) as [msg|] eqn:F4;
      [eapply Hstop; [..|exact Hrun]; first [reflexivity | sent_same | left; eexists; eassumption]|].
    cbv [modify] in Hrun. store_simpl.
    unfold bind at 1 in Hrun. cbv [set_rows_migrated modify] in Hrun. store_simpl.
    rewrite Hpend in Hrun. cbn [app] in Hrun.
    apply IH in Hrun; [| reflexivity | reflexivity |].
    2:{ replace (Z.to_nat (offset + B)) with (Z.to_nat offset + Z.to_nat B)%nat by lia.
        rewrite <- drop_drop. fold rest. rewrite length_drop.
        assert (0 < length rest)%nat by (destruct rest; [congruence | simpl; lia]).
        clear - H Hfuel HBpos. clearbody rest. lia. }
    destruct Hrun as (k & Hc & Hr & Hb & Ht & Hs & Ho). store_simpl.
    replace (Z.to_nat (offset + B)) with (Z.to_nat offset + Z.to_nat B)%nat in * by lia.
    rewrite <- drop_drop in *. fold rest in Hc, Hr, Ho.
    exists (S k). cbv zeta. fold rest.
    rewrite (chunks_cons (Z.to_nat B) rest) by (auto; lia).
    rewrite Hrows. cbn [take firstn List.map concat]. fold batch.
    rewrite Hc, Hr, Hb, Ht, <- app_assoc, length_app.
    split; [reflexivity|].
    split; [rewrite with_rows_migrated_twice; f_equal; lia|].
    do 2 (split; [reflexivity|]).
    split; [rewrite Hs; sent_same|].
    destruct o as [[]|e| |]; [|destruct Ho as [?|[?|?]]; [auto | lia | lia]|auto..].
    destruct Ho as (Hp & _ & Ho). split; [exact Hp|]. split; [lia|].
    intros _. destruct (Ho HBpos) as (Hk & Hsel & Hins).
    split; [f_equal; exact Hk|].
    rewrite Hsel, Hins. store_simpl.
    rewrite !select_rounds_app, !insert_rounds_app. cbn [app].
    change (select_rounds [(ExecuteQuery q, Produced batch)])
      with [(B, offset, length batch)].
    change (select_rounds [(FetchAll, Ok)]) with (@nil (Z * Z * nat)).
    change (select_rounds [(Commit, Ok)]) with (@nil (Z * Z * nat)).
    change (select_rounds [(ExecuteMany (InsertInto (database tp) (schema tp) tbl cl
                                                   (length columns) batch), Ok)])
      with (@nil (Z * Z * nat)).
    change (insert_rounds [(ExecuteQuery q, Produced batch)]) with (@nil (list row)).
    change (insert_rounds [(FetchAll, Ok)]) with (@nil (list row)).
    change (insert_rounds [(Commit, Ok)]) with (@nil (list row)).
    change (insert_rounds [(ExecuteMany (InsertInto (database tp) (schema tp) tbl cl
                                                   (length columns) batch), Ok)])
      with [batch].
    rewrite !app_nil_r, <- !app_assoc. cbn [app imap].
    rewrite Z.add_0_r. split; [|reflexivity].
    do 2 f_equal. apply imap_ext. intros i b _. cbn. f_equal. f_equal. lia.
Qed.

(** ** The [try] block of [migrate_table] *)

Ltac frame_simpl H :=
  cbn [calls ticks trace committed pending result_set bound result
       set_bound set_result_set set_pending set_committed set_result
       record note tick new_frame conn_of cursor_of] in H.

Ltac frame_goal :=
  cbn [calls ticks trace committed pending result_set bound result
       set_bound set_result_set set_pending set_committed set_result
       record note tick new_frame conn_of cursor_of
       app take firstn List.map concat length].

Ltac obs_simpl :=
  cbn [app statements_sent select_rounds insert_rounds omap list_omap
       verbatim select_round insert_round].

Ltac obs_simpl_in H :=
  cbn [app statements_sent select_rounds insert_rounds omap list_omap
       verbatim select_round insert_round] in H.

Ltac early H F :=
  injection H as <- <-; exists 0%nat; frame_goal; obs_simpl;
  split; [reflexivity|];
  split; [first [left; split; reflexivity | right; reflexivity]|];
  split; [first [left; reflexivity | right; reflexivity]|];
  split; [first [left; reflexivity | right; reflexivity]|];
  split; [reflexivity | left; eexists; exact F].

Ltac missing H :=
  injection H as <- <-; frame_goal; obs_simpl; repeat split; eauto.

Lemma migrate_table_body_found tbl sp tp B env t o st1 :
  find_table (catalog env) (database sp) (schema sp) tbl = Some t ->
  migrate_table_body tbl sp tp B env (entry tbl) = (o, st1) ->
  let ddl := Str.replace (qualifier sp) (qualifier tp) (t_ddl t) in
  let ins := insert_of tp tbl (join_strings ", " (t_columns t)) (length (t_columns t)) in
  let all := chunks (Z.to_nat B) (t_rows t) in
  exists k,
    let batches := take k all in
    ticks st1 = 1%nat /\
    (committed st1 = [] /\ k = 0%nat \/
     committed st1 =
       DropTableIfExists (database tp) (schema tp) tbl :: Statement ddl ::
       List.map ins batches) /\
    (statements_sent (trace st1) = [] \/ statements_sent (trace st1) = [ddl]) /\
    (in_locals target_conn st1 = true \/ pending st1 = []) /\
    match o with
    | Normal _ =>
        result st1 =
          with_success true
            (with_rows_migrated (Z.of_nat (length (concat batches))) (initial_result tbl)) /\
        pending st1 = [] /\
        statements_sent (trace st1) = [ddl] /\
        committed st1 =
          DropTableIfExists (database tp) (schema tp) tbl :: Statement ddl ::
          List.map ins batches /\
        0 <= B /\
        (0 < B ->
         batches = all /\
         select_rounds (trace st1) =
           imap (fun i b => (B, Z.of_nat i * B, length b)) (all ++ [[]]) /\
         insert_rounds (trace st1) = all)
    | Raise e =>
        result st1 =
          with_rows_migrated (Z.of_nat (length (concat batches))) (initial_result tbl) /\
        ((exists j, faults env j = Some (str e)) \/ B < 0)
    | Return _ | Diverge => False
    end.
Proof.
  intros Hfind Hrun ddl ins all.
  unfold migrate_table_body, entry in Hrun.
  rewrite bind_connect in Hrun; frame_simpl Hrun.
  destruct (faults env 0) as [msg|] eqn:F0; [early Hrun F0|].
  rewrite bind_cursor in Hrun; frame_simpl Hrun.
  destruct (faults env 1) as [msg|] eqn:F1; [early Hrun F1|].
  rewrite bind_connect in Hrun; frame_simpl Hrun.
  destruct (faults env 2) as [msg|] eqn:F2; [early Hrun F2|].
  rewrite bind_cursor in Hrun; frame_simpl Hrun.
  destruct (faults env 3) as [msg|] eqn:F3; [early Hrun F3|].
  rewrite bind_execute_query in Hrun; frame_simpl Hrun.
  destruct (faults env 4) as [msg|] eqn:F4; [early Hrun F4|].
  cbn [answer] in Hrun. rewrite Hfind in Hrun.
  rewrite bind_fetchone in Hrun; frame_simpl Hrun.
  destruct (faults env 5) as [msg|] eqn:F5; [early Hrun F5|].
  cbn [head tail first_of_fetched] in Hrun.
  rewrite bind_ret in Hrun. cbn [str_replace] in Hrun.
  rewrite bind_ret in Hrun. fold ddl in Hrun.
  rewrite bind_execute in Hrun; frame_simpl Hrun.
  destruct (faults env 6) as [msg|] eqn:F6; [early Hrun F6|].
  rewrite bind_execute in Hrun; frame_simpl Hrun.
  destruct (faults env 7) as [msg|] eqn:F7; [early Hrun F7|].
  rewrite bind_commit in Hrun; frame_simpl Hrun.
  destruct (faults env 8) as [msg|] eqn:F8; [early Hrun F8|].
  rewrite bind_execute_query in Hrun; frame_simpl Hrun.
  destruct (faults env 9) as [msg|] eqn:F9; [early Hrun F9|].
  cbn [answer] in Hrun. rewrite Hfind in Hrun.
  rewrite bind_fetchall in Hrun; frame_simpl Hrun.
  destruct (faults env 10) as [msg|] eqn:F10; [early Hrun F10|].
  unfold bind at 1 in Hrun. rewrite first_column_names in Hrun.
  unfold join at 1 in Hrun. rewrite all_strings_names, bind_ret in Hrun.
  unfold bind at 1 in Hrun. cbv beta in Hrun.
  match type of Hrun with
  | context [copy_loop _ _ _ _ _ _ _ _ _ _ ?s] => set (stL := s) in Hrun
  end.
  destruct (copy_loop _ _ _ _ _ _ _ _ _ _ stL) as [oL st2] eqn:Hloop.
  eapply copy_loop_spec in Hloop; [|exact Hfind|reflexivity|reflexivity|].
  2:{ unfold round_bound. rewrite Hfind. rewrite drop_0. lia. }
  destruct Hloop as (k & Hc & Hr & Hb & Ht & Hs & Ho).
  rewrite drop_0, length_map in *. fold all ins in Hc, Hr, Ho.
  subst stL. frame_simpl Hb. frame_simpl Hc. frame_simpl Hr. frame_simpl Ht. frame_simpl Hs.
  frame_simpl Ho. cbn [app] in Hc. obs_simpl_in Hs. obs_simpl_in Ho.
  exists k. cbv zeta.
  destruct oL as [[]|e| |]; [| |contradiction..].
  - cbv [set_success modify] in Hrun. injection Hrun as <- <-. frame_goal.
    destruct Ho as (Hp & HB & Ho).
    split; [exact Ht|]. split; [right; exact Hc|]. split; [right; exact Hs|].
    split; [left; unfold in_locals; frame_goal; rewrite Hb; reflexivity|].
    split; [rewrite Hr; reflexivity|].
    split; [exact Hp|]. split; [exact Hs|]. split; [exact Hc|].
    split; [exact HB|].
    intros HBpos. destruct (Ho HBpos) as (Hk & Hsel & Hins).
    split; [exact Hk|]. split; [|exact Hins].
    rewrite Hsel. apply imap_ext. intros i b _. cbn. reflexivity.
  - injection Hrun as <- <-.
    split; [exact Ht|]. split; [right; exact Hc|]. split; [right; exact Hs|].
    split; [left; unfold in_locals; frame_goal; rewrite Hb; reflexivity|].
    split; [rewrite Hr; reflexivity|].
    destruct Ho as [Hf|[Hneg|Hneg]]; [left; exact Hf | right; exact Hneg | lia].
Qed.

Lemma migrate_table_body_missing tbl sp tp B env o st1 :
  find_table (catalog env) (database sp) (schema sp) tbl = None ->
  migrate_table_body tbl sp tp B env (entry tbl) = (o, st1) ->
  ticks st1 = 1%nat /\ committed st1 = [] /\ pending st1 = [] /\
  statements_sent (trace st1) = [] /\
  select_rounds (trace st1) = [] /\ insert_rounds (trace st1) = [] /\
  result st1 = initial_result tbl /\
  exists e, o = Raise e.
Proof.
  intros Hfind Hrun.
  unfold migrate_table_body, entry in Hrun.
  rewrite bind_connect in Hrun; frame_simpl Hrun.
  destruct (faults env 0) as [msg|] eqn:F0; [missing Hrun|].
  rewrite bind_cursor in Hrun; frame_simpl Hrun.
  destruct (faults env 1) as [msg|] eqn:F1; [missing Hrun|].
  rewrite bind_connect in Hrun; frame_simpl Hrun.
  destruct (faults env 2) as [msg|] eqn:F2; [missing Hrun|].
  rewrite bind_cursor in Hrun; frame_simpl Hrun.
  destruct (faults env 3) as [msg|] eqn:F3; [missing Hrun|].
  rewrite bind_execute_query in Hrun; frame_simpl Hrun.
  destruct (faults env 4) as [msg|] eqn:F4; [missing Hrun|].
  cbn [answer] in Hrun. rewrite Hfind in Hrun. missing Hrun.
Qed.

(** ** The whole of [migrate_table] *)

Lemma finally_returns (start : Z) env st :
  in_locals target_conn st = true \/ pending st = [] ->
  exists stF closes,
    (close_cursor_if_bound Source ;;
     close_conn_if_bound Source ;;
     close_cursor_if_bound Target ;;
     close_conn_if_bound Target ;;
     now <- time ;;
     set_time_taken (Elapsed start now) ;;
     r <- get_result ;;
     @return_ MigrationResult Empty_set r)%py env st = (Return (result stF), stF) /\
    result stF = with_time_taken (Elapsed start (clock env (ticks st))) (result st) /\
    committed stF = committed st /\ pending stF = [] /\
    trace stF = trace st ++ closes /\
    select_rounds closes = [] /\ insert_rounds closes = [] /\
    statements_sent closes = [].
Proof.
  intros Hpend.
  unfold close_cursor_if_bound, close_conn_if_bound, set_time_taken, in_locals in *.
  rewrite bind_modify. cbn [cursor_of conn_of].
  destruct (existsb (local_eqb source_cursor) (bound st)) eqn:E1;
  rewrite bind_modify; frame_goal;
  destruct (existsb (local_eqb source_conn) (bound st)) eqn:E2;
  rewrite bind_modify; frame_goal;
  destruct (existsb (local_eqb target_cursor) (bound st)) eqn:E3;
  rewrite bind_modify; frame_goal;
  destruct (existsb (local_eqb target_conn) (bound st)) eqn:E4;
  rewrite bind_time, bind_modify; cbv [bind get_result return_]; frame_goal;
  (match goal with |- exists stF closes, (_, ?s) = _ /\ _ => exists s end;
   eexists; split; [reflexivity|]; frame_goal;
   split; [reflexivity|]; split; [reflexivity|];
   split; [first [reflexivity | destruct Hpend; [discriminate | assumption]]|];
   split; [first [symmetry; apply app_nil_r | rewrite <- ?app_assoc; reflexivity]|];
   split; [reflexivity|]; split; reflexivity).
Qed.

Lemma migrate_table_finish tbl sp tp B env o st1 :
  migrate_table_body tbl sp tp B env (entry tbl) = (o, st1) ->
  ticks st1 = 1%nat ->
  in_locals target_conn st1 = true \/ pending st1 = [] ->
  match o with Normal _ | Raise _ => True | _ => False end ->
  exists st closes,
    run (migrate_table tbl sp tp B) env new_frame = (Returned (result st), st) /\
    result st =
      with_time_taken (Elapsed (clock env 0) (clock env 1))
        (match o with
         | Raise e => with_error (Some (str e)) (result st1)
         | _ => result st1
         end) /\
    committed st = committed st1 /\ pending st = [] /\
    trace st = trace st1 ++ closes /\
    select_rounds closes = [] /\ insert_rounds closes = [] /\
    statements_sent closes = [].
Proof.
  intros Hbody Hticks Hpend Ho.
  unfold run, migrate_table.
  rewrite bind_time, bind_modify. fold (entry tbl).
  unfold try_finally_return, try_except. rewrite Hbody.
  destruct o as [[]|e| |]; try contradiction.
  - destruct (finally_returns (clock env (ticks new_frame)) env st1 Hpend)
      as (stF & closes & -> & Hr & Hrest).
    exists stF, closes. rewrite Hr, Hticks. split; [reflexivity|]. split; [reflexivity|].
    exact Hrest.
  - cbv [set_error modify].
    destruct (finally_returns (clock env (ticks new_frame)) env
                (set_result (with_error (Some (str e)) (result st1)) st1) Hpend)
      as (stF & closes & -> & Hr & Hrest).
    exists stF, closes. rewrite Hr. frame_goal. rewrite Hticks.
    split; [reflexivity|]. split; [reflexivity|]. exact Hrest.
Qed.

(** ** Runs of [migrate_table], by how the [try] block ended *)

Lemma migrate_table_found tbl sp tp B env t :
  find_table (catalog env) (database sp) (schema sp) tbl = Some t ->
  let ddl := Str.replace (qualifier sp) (qualifier tp) (t_ddl t) in
  let ins := insert_of tp tbl (join_strings ", " (t_columns t)) (length (t_columns t)) in
  let all := chunks (Z.to_nat B) (t_rows t) in
  exists k st o st1,
    let batches := take k all in
    run (migrate_table tbl sp tp B) env new_frame = (Returned (result st), st) /\
    migrate_table_body tbl sp tp B env (entry tbl) = (o, st1) /\
    table (result st) = tbl /\
    time_taken (result st) = Elapsed (clock env 0) (clock env 1) /\
    rows_migrated (result st) = Z.of_nat (length (concat batches)) /\
    pending st = [] /\
    (committed st = [] /\ k = 0%nat \/
     committed st =
       DropTableIfExists (database tp) (schema tp) tbl :: Statement ddl ::
       List.map ins batches) /\
    (statements_sent (trace st) = [] \/ statements_sent (trace st) = [ddl]) /\
    match o with
    | Normal _ =>
        success (result st) = true /\ error (result st) = None /\
        statements_sent (trace st) = [ddl] /\
        committed st =
          DropTableIfExists (database tp) (schema tp) tbl :: Statement ddl ::
          List.map ins batches /\
        0 <= B /\
        (0 < B ->
         batches = all /\
         select_rounds (trace st) =
           imap (fun i b => (B, Z.of_nat i * B, length b)) (all ++ [[]]) /\
         insert_rounds (trace st) = all)
    | Raise e =>
        success (result st) = false /\ error (result st) = Some (str e) /\
        ((exists j, faults env j = Some (str e)) \/ B < 0)
    | Return _ | Diverge => False
    end.
Proof.
  intros Hfind ddl ins all.
  destruct (migrate_table_body tbl sp tp B env (entry tbl)) as [o st1] eqn:Hbody.
  destruct (migrate_table_body_found _ _ _ _ _ _ _ _ Hfind Hbody)
    as (k & Ht & Hc & Hs & Hl & Ho).
  fold ddl ins all in Hc, Hs, Ho.
  assert (Hgood : match o with Normal _ | Raise _ => True | _ => False end)
    by (destruct o; auto).
  destruct (migrate_table_finish _ _ _ _ _ _ _ Hbody Ht Hl Hgood)
    as (st & closes & Hrun & Hr & Hcom & Hp & Htr & Hsel & Hins & Hsent).
  exists k, st, o, st1. cbv zeta.
  split; [exact Hrun|]. split; [reflexivity|].
  rewrite Htr, statements_sent_app, select_rounds_app, insert_rounds_app.
  rewrite Hsel, Hins, Hsent, !app_nil_r, Hcom, Hr.
  destruct o as [[]|e| |]; try contradiction.
  - destruct Ho as (Hres & Hpend & Hs' & Hc' & HB & Hrounds). rewrite Hres.
    repeat (split; [first [reflexivity | assumption]|]). assumption.
  - destruct Ho as (Hres & Hcause). rewrite Hres.
    repeat (split; [first [reflexivity | assumption]|]). assumption.
Qed.

Lemma migrate_table_missing tbl sp tp B env :
  find_table (catalog env) (database sp) (schema sp) tbl = None ->
  exists st e st1,
    run (migrate_table tbl sp tp B) env new_frame = (Returned (result st), st) /\
    migrate_table_body tbl sp tp B env (entry tbl) = (Raise e, st1) /\
    result st =
      with_time_taken (Elapsed (clock env 0) (clock env 1))
        (with_error (Some (str e)) (initial_result tbl)) /\
    committed st = [] /\ pending st = [] /\
    statements_sent (trace st) = [] /\
    select_rounds (trace st) = [] /\ insert_rounds (trace st) = [].
Proof.
  intros Hfind.
  destruct (migrate_table_body tbl sp tp B env (entry tbl)) as [o st1] eqn:Hbody.
  destruct (migrate_table_body_missing _ _ _ _ _ _ _ Hfind Hbody)
    as (Ht & Hc & Hp & Hs & Hsel & Hins & Hres & e & ->).
  destruct (migrate_table_finish _ _ _ _ _ _ _ Hbody Ht (or_intror Hp) I)
    as (st & closes & Hrun & Hr & Hcom & Hp' & Htr & Hsel' & Hins' & Hsent').
  exists st, e, st1.
  split; [exact Hrun|]. split; [reflexivity|].
  rewrite Htr, statements_sent_app, select_rounds_app, insert_rounds_app.
  rewrite Hsel, Hins, Hs, Hsel', Hins', Hsent', Hcom, Hc, Hr, Hres.
  repeat (split; [first [reflexivity | assumption]|]). reflexivity.
Qed.

(** [migrate_table] always comes back, and with a result. *)
Lemma migrate_table_returns tbl sp tp B env :
  exists st, run (migrate_table tbl sp tp B) env new_frame = (Returned (result st), st).
Proof.
  destruct (find_table (catalog env) (database sp) (schema sp) tbl) as [t|] eqn:Hfind.
  - destruct (migrate_table_found tbl sp tp B env t Hfind) as (k & st & o & st1 & H & _).
    exists st. exact H.
  - destruct (migrate_table_missing tbl sp tp B env Hfind) as (st & e & st1 & H & _).
    exists st. exact H.
Qed.

(** ** What [migrate_table] guarantees *)

Lemma batches_inserted_copy tp tbl cl n ddl (batches : list (list row)) :
  batches_inserted
    (DropTableIfExists (database tp) (schema tp) tbl :: Statement ddl ::
     List.map (insert_of tp tbl cl n) batches) = batches.
Proof.
  unfold batches_inserted. cbn [omap list_omap inserted_batch].
  induction batches as [|b bs IH]; [reflexivity|].
  cbn [List.map omap list_omap insert_of inserted_batch].
  f_equal. exact IH.
Qed.

Lemma same_table_refl (db sch tbl : string) :
  (String.eqb db db && String.eqb sch sch && String.eqb tbl tbl) = true.
Proof. now rewrite !String.eqb_refl. Qed.

Lemma table_rows_inserts tp tbl cl n (batches : list (list row)) (rows : list row) :
  fold_left (apply_stmt (database tp) (schema tp) tbl)
            (List.map (insert_of tp tbl cl n) batches) rows
  = rows ++ concat batches.
Proof.
  revert rows. induction batches as [|b bs IH]; intros rows.
  - cbn. now rewrite app_nil_r.
  - cbn [List.map fold_left concat]. rewrite IH.
    unfold insert_of at 1. cbn [apply_stmt]. rewrite same_table_refl.
    now rewrite app_assoc.
Qed.

(** After drop, create and the committed inserts, the target table holds
    the committed batches and nothing else, whatever it held before. *)
Lemma table_rows_copy tp tbl cl n ddl (batches : list (list row)) (earlier : list stmt) :
  table_rows (database tp) (schema tp) tbl
    (earlier ++
     DropTableIfExists (database tp) (schema tp) tbl :: Statement ddl ::
     List.map (insert_of tp tbl cl n) batches)
  = concat batches.
Proof.
  unfold table_rows. rewrite fold_left_app. cbn [fold_left apply_stmt].
  rewrite same_table_refl. apply table_rows_inserts.
Qed.

Lemma qualifier_nonempty (p : ConnectionProfile) : qualifier p <> EmptyString.
Proof. unfold qualifier. destruct (database p); discriminate. Qed.

(** C10. Every call of [migrate_table] returns a result in which the
    success flag is true exactly when the error field is [None];
    [rows_migrated] is set on every path (to the number of rows of the
    batches the call committed) and so is [time_taken] (to the time
    elapsed between the two readings of the clock). *)
Theorem migrate_table_result_invariant tbl sp tp B env :
  exists r st,
    run (migrate_table tbl sp tp B) env new_frame = (Returned r, st) /\
    (success r = true <-> error r = None) /\
    rows_migrated r = Z.of_nat (length (concat (batches_inserted (committed st)))) /\
    time_taken r = Elapsed (clock env 0) (clock env 1) /\
    table r = tbl.
Proof.
  destruct (find_table (catalog env) (database sp) (schema sp) tbl) as [t|] eqn:Hfind.
  - destruct (migrate_table_found tbl sp tp B env t Hfind)
      as (k & st & o & st1 & Hrun & _ & Htbl & Htime & Hrows & _ & Hc & _ & Ho).
    exists (result st), st. split; [exact Hrun|].
    split.
    { destruct o as [[]|e| |]; try contradiction.
      - destruct Ho as (-> & -> & _). tauto.
      - destruct Ho as (-> & -> & _). split; discriminate. }
    split; [|split; assumption].
    rewrite Hrows. destruct Hc as [ [ -> -> ] | -> ].
    + reflexivity.
    + now rewrite batches_inserted_copy.
  - destruct (migrate_table_missing tbl sp tp B env Hfind)
      as (st & e & st1 & Hrun & _ & Hr & Hc & _).
    exists (result st), st. split; [exact Hrun|].
    rewrite Hr, Hc. cbn. repeat split; discriminate.
Qed.

(** C9. When a table's copy fails, whatever the step that failed, the
    result carries the error, [rows_migrated] is the number of rows of
    the rounds committed before the failure (zero when none was), and the
    target took exactly those batches: either the failure came before the
    new table was committed and the target is as it was, or the target
    table holds the committed batches and nothing else. *)
Theorem migrate_table_failure_keeps_committed tbl sp tp B env r st :
  run (migrate_table tbl sp tp B) env new_frame = (Returned r, st) ->
  success r = false ->
  exists k,
    let batches := take k (chunks (Z.to_nat B) (source_rows (catalog env) sp tbl)) in
    (exists msg, error r = Some msg) /\
    rows_migrated r = Z.of_nat (length (concat batches)) /\
    batches_inserted (committed st) = batches /\
    pending st = [] /\
    (committed st = [] /\ rows_migrated r = 0 \/
     forall earlier,
       table_rows (database tp) (schema tp) tbl (earlier ++ committed st)
       = concat batches).
Proof.
  intros Hrun Hfail. unfold source_rows.
  destruct (find_table (catalog env) (database sp) (schema sp) tbl) as [t|] eqn:Hfind.
  - destruct (migrate_table_found tbl sp tp B env t Hfind)
      as (k & st' & o & st1 & Hrun' & _ & _ & _ & Hrows & Hp & Hc & _ & Ho).
    rewrite Hrun in Hrun'. injection Hrun' as -> ->.
    exists k. cbv zeta.
    destruct o as [[]|e| |]; try contradiction.
    { destruct Ho as (Hs & _). congruence. }
    destruct Ho as (_ & He & _).
    split; [eauto|]. split; [exact Hrows|].
    destruct Hc as [ [Hc -> ] | Hc ]; rewrite Hc.
    + split; [reflexivity|]. split; [exact Hp|]. left. split; [reflexivity|].
      rewrite Hrows. reflexivity.
    + rewrite batches_inserted_copy. split; [reflexivity|]. split; [exact Hp|].
      right. intros earlier. apply table_rows_copy.
  - destruct (migrate_table_missing tbl sp tp B env Hfind)
      as (st' & e & st1 & Hrun' & _ & Hr & Hc & Hp & _).
    rewrite Hrun in Hrun'. injection Hrun' as -> ->.
    exists 0%nat. cbv zeta. rewrite Hr, Hc. cbn.
    split; [eauto|]. repeat split; auto.
Qed.

Lemma migrate_table_failure_keeps_committed_witness :
  let x := Scenario.migrate Scenario.breaks_in_round_two "ORDERS" 2 in
  let r := Scenario.returned x in
  let st := snd x in
  (x = (Returned r, st) /\ success r = false) /\
  exists k,
    let batches :=
      take k (chunks (Z.to_nat 2)
                (source_rows (catalog Scenario.breaks_in_round_two)
                             Scenario.source_profile "ORDERS")) in
    (exists msg, error r = Some msg) /\
    rows_migrated r = Z.of_nat (length (concat batches)) /\
    batches_inserted (committed st) = batches /\
    pending st = [] /\
    (committed st = [] /\ rows_migrated r = 0 \/
     forall earlier,
       table_rows (database Scenario.target_profile) (schema Scenario.target_profile)
                  "ORDERS" (earlier ++ committed st)
       = concat batches).
Proof.
  cbv zeta. split; [split; vm_compute; reflexivity|].
  apply (migrate_table_failure_keeps_committed
           "ORDERS" Scenario.source_profile Scenario.target_profile 2
           Scenario.breaks_in_round_two);
    vm_compute; reflexivity.
Defined.

(** C3. A successful copy of a source table of R rows (read with a
    positive batch size, the source unchanged during the run) reports
    [rows_migrated = R], and the target table ends with exactly the R rows
    of the source, whatever the target held before. *)
Theorem migrate_table_success_copies_every_row tbl sp tp B env t r st :
  find_table (catalog env) (database sp) (schema sp) tbl = Some t ->
  0 < B ->
  run (migrate_table tbl sp tp B) env new_frame = (Returned r, st) ->
  success r = true ->
  rows_migrated r = Z.of_nat (length (t_rows t)) /\
  forall earlier,
    table_rows (database tp) (schema tp) tbl (earlier ++ committed st) = t_rows t /\
    length (table_rows (database tp) (schema tp) tbl (earlier ++ committed st))
    = length (t_rows t).
Proof.
  intros Hfind HB Hrun Hok.
  destruct (migrate_table_found tbl sp tp B env t Hfind)
    as (k & st' & o & st1 & Hrun' & _ & _ & _ & Hrows & _ & _ & _ & Ho).
  rewrite Hrun in Hrun'. injection Hrun' as -> ->.
  destruct o as [[]|e| |]; try contradiction.
  2:{ destruct Ho as (Hs & _). congruence. }
  destruct Ho as (_ & _ & _ & Hc & _ & Hall).
  destruct (Hall HB) as (Hk & _). rewrite Hk in Hrows, Hc.
  rewrite concat_chunks in Hrows by lia.
  split; [exact Hrows|].
  intros earlier. rewrite Hc, table_rows_copy, concat_chunks by lia.
  split; reflexivity.
Qed.

Lemma migrate_table_success_copies_every_row_witness :
  let x := Scenario.migrate Scenario.quiet "ORDERS" 2 in
  let r := Scenario.returned x in
  let st := snd x in
  (find_table (catalog Scenario.quiet) "SRC" "PUBLIC" "ORDERS" = Some Scenario.orders /\
   0 < 2 /\ x = (Returned r, st) /\ success r = true) /\
  rows_migrated r = 5 /\
  forall earlier,
    table_rows "TGT" "STAGE" "ORDERS" (earlier ++ committed st)
    = t_rows Scenario.orders /\
    length (table_rows "TGT" "STAGE" "ORDERS" (earlier ++ committed st)) = 5%nat.
Proof.
  cbv zeta.
  split; [split; [vm_compute; reflexivity | split; [lia | split; vm_compute; reflexivity]]|].
  apply (migrate_table_success_copies_every_row
           "ORDERS" Scenario.source_profile Scenario.target_profile 2
           Scenario.quiet Scenario.orders
           (Scenario.returned (Scenario.migrate Scenario.quiet "ORDERS" 2))
           (snd (Scenario.migrate Scenario.quiet "ORDERS" 2)));
    [vm_compute; reflexivity | lia | vm_compute; reflexivity | vm_compute; reflexivity].
Defined.

(** C4. A copy of R rows with batch size B that runs to its end takes
    [ceil(R / B)] extract-and-insert rounds. Round [i] asks for up to B
    rows at offset [i * B]; every round but the last gets B rows, the last
    one [R mod B], or B when B divides R. One more request, at the next
    offset, comes back with zero rows, and the loop stops there. *)
Theorem migrate_table_rounds tbl sp tp B env t r st :
  find_table (catalog env) (database sp) (schema sp) tbl = Some t ->
  0 < B ->
  run (migrate_table tbl sp tp B) env new_frame = (Returned r, st) ->
  success r = true ->
  let R := Z.of_nat (length (t_rows t)) in
  let batches := insert_rounds (trace st) in
  Z.of_nat (length batches) = ceil_div R B /\
  select_rounds (trace st)
  = imap (fun i b => (B, Z.of_nat i * B, length b)) (batches ++ [[]]) /\
  (forall i b, batches !! i = Some b ->
     b <> [] /\
     ((S i < length batches)%nat -> Z.of_nat (length b) = B) /\
     (S i = length batches ->
      Z.of_nat (length b) = if R mod B =? 0 then B else R mod B)) /\
  concat batches = t_rows t.
Proof.
  intros Hfind HB Hrun Hok R batches.
  destruct (migrate_table_found tbl sp tp B env t Hfind)
    as (k & st' & o & st1 & Hrun' & _ & _ & _ & _ & _ & _ & _ & Ho).
  rewrite Hrun in Hrun'. injection Hrun' as -> ->.
  destruct o as [[]|e| |]; try contradiction.
  2:{ destruct Ho as (Hs & _). congruence. }
  destruct Ho as (_ & _ & _ & _ & _ & Hall).
  destruct (Hall HB) as (_ & Hsel & Hins).
  subst batches. rewrite Hins, Hsel.
  assert (Hn : (0 < Z.to_nat B)%nat) by lia.
  split.
  { rewrite length_chunks by exact Hn. subst R. now rewrite Z2Nat.id by lia. }
  split; [reflexivity|].
  split; [|apply concat_chunks; exact Hn].
  intros i b Hb.
  split; [eapply chunks_nonempty; [exact Hn|]; eapply list_elem_of_lookup_2; exact Hb|].
  destruct (chunks_sizes (Z.to_nat B) (t_rows t) i b Hn Hb) as [Hfull Hlast].
  rewrite Z2Nat.id in Hlast by lia.
  split; [|exact Hlast].
  intros Hi. rewrite (Hfull Hi). lia.
Qed.

Lemma migrate_table_rounds_witness :
  let x := Scenario.migrate Scenario.quiet "ORDERS" 2 in
  let r := Scenario.returned x in
  let st := snd x in
  (find_table (catalog Scenario.quiet) "SRC" "PUBLIC" "ORDERS" = Some Scenario.orders /\
   0 < 2 /\ x = (Returned r, st) /\ success r = true) /\
  let R := Z.of_nat (length (t_rows Scenario.orders)) in
  let batches := insert_rounds (trace st) in
  Z.of_nat (length batches) = ceil_div R 2 /\
  select_rounds (trace st)
  = imap (fun i b => (2, Z.of_nat i * 2, length b)) (batches ++ [[]]) /\
  (forall i b, batches !! i = Some b ->
     b <> [] /\
     ((S i < length batches)%nat -> Z.of_nat (length b) = 2) /\
     (S i = length batches ->
      Z.of_nat (length b) = if R mod 2 =? 0 then 2 else R mod 2)) /\
  concat batches = t_rows Scenario.orders.
Proof.
  cbv zeta.
  split; [split; [vm_compute; reflexivity | split; [lia | split; vm_compute; reflexivity]]|].
  apply (migrate_table_rounds
           "ORDERS" Scenario.source_profile Scenario.target_profile 2
           Scenario.quiet Scenario.orders
           (Scenario.returned (Scenario.migrate Scenario.quiet "ORDERS" 2))
           (snd (Scenario.migrate Scenario.quiet "ORDERS" 2)));
    [vm_compute; reflexivity | lia | vm_compute; reflexivity | vm_compute; reflexivity].
Defined.

(** C7. Whatever statement a run sends to the target verbatim is the
    definition fetched for the table with every occurrence of the source
    qualifier [database.schema], leftmost first, replaced by the target
    qualifier, and every other character carried through as it is; it is
    the only text related to the definition in that way, and the only
    verbatim statement of the run. *)
Theorem translation_requalifies tbl sp tp B env r st sql :
  run (migrate_table tbl sp tp B) env new_frame = (Returned r, st) ->
  sql ∈ statements_sent (trace st) ->
  exists t,
    find_table (catalog env) (database sp) (schema sp) tbl = Some t /\
    sql = Str.replace (qualifier sp) (qualifier tp) (t_ddl t) /\
    Str.Requalified (qualifier sp) (qualifier tp) (t_ddl t) sql /\
    (forall other,
       Str.Requalified (qualifier sp) (qualifier tp) (t_ddl t) other -> other = sql) /\
    statements_sent (trace st) = [sql].
Proof.
  intros Hrun Hin.
  destruct (find_table (catalog env) (database sp) (schema sp) tbl) as [t|] eqn:Hfind.
  - destruct (migrate_table_found tbl sp tp B env t Hfind)
      as (k & st' & o & st1 & Hrun' & _ & _ & _ & _ & _ & _ & Hs & _).
    rewrite Hrun in Hrun'. injection Hrun' as -> ->.
    destruct Hs as [Hs|Hs]; rewrite Hs in Hin; [inversion Hin|].
    apply list_elem_of_singleton in Hin. subst sql.
    exists t. split; [reflexivity|]. split; [reflexivity|].
    pose proof (qualifier_nonempty sp) as Hne.
    rewrite (StrFacts.replace_nonempty _ _ _ Hne).
    split; [apply StrFacts.replace_from_Requalified; exact Hne|].
    split; [|now rewrite Hs, (StrFacts.replace_nonempty _ _ _ Hne)].
    intros other Hother. eapply StrFacts.Requalified_functional; eassumption.
  - destruct (migrate_table_missing tbl sp tp B env Hfind)
      as (st' & e & st1 & Hrun' & _ & _ & _ & _ & Hs & _).
    rewrite Hrun in Hrun'. injection Hrun' as -> ->.
    rewrite Hs in Hin. inversion Hin.
Qed.

Lemma translation_requalifies_witness :
  let x := Scenario.migrate Scenario.quiet "ORDERS" 2 in
  let r := Scenario.returned x in
  let st := snd x in
  let sql := "create or replace TABLE TGT.STAGE.ORDERS (ID NUMBER, STATUS VARCHAR)"%string in
  (x = (Returned r, st) /\ sql ∈ statements_sent (trace st)) /\
  exists t,
    find_table (catalog Scenario.quiet) "SRC" "PUBLIC" "ORDERS" = Some t /\
    sql = Str.replace "SRC.PUBLIC" "TGT.STAGE" (t_ddl t) /\
    Str.Requalified "SRC.PUBLIC" "TGT.STAGE" (t_ddl t) sql /\
    (forall other,
       Str.Requalified "SRC.PUBLIC" "TGT.STAGE" (t_ddl t) other -> other = sql) /\
    statements_sent (trace st) = [sql].
Proof.
  cbv zeta.
  assert (Hin : "create or replace TABLE TGT.STAGE.ORDERS (ID NUMBER, STATUS VARCHAR)"%string
                ∈ statements_sent (trace (snd (Scenario.migrate Scenario.quiet "ORDERS" 2))))
    by (vm_compute; apply list_elem_of_here).
  split; [split; [vm_compute; reflexivity | exact Hin]|].
  apply (translation_requalifies
           "ORDERS" Scenario.source_profile Scenario.target_profile 2 Scenario.quiet
           (Scenario.returned (Scenario.migrate Scenario.quiet "ORDERS" 2))
           (snd (Scenario.migrate Scenario.quiet "ORDERS" 2)));
    [vm_compute; reflexivity | exact Hin].
Defined.

(** C8, as the code has it. When the source qualifier does not occur in
    the definition fetched, nothing is signalled: the statement sent to
    the target is the fetched definition, unchanged, and the absence is no
    error of the run: with no failing connector call and a batch size that
    is not negative, the run succeeds with no error recorded. *)
Theorem translation_without_qualifier_is_silent tbl sp tp B env t r st :
  find_table (catalog env) (database sp) (schema sp) tbl = Some t ->
  ~ Str.occurs_in (qualifier sp) (t_ddl t) ->
  run (migrate_table tbl sp tp B) env new_frame = (Returned r, st) ->
  (forall sql, sql ∈ statements_sent (trace st) -> sql = t_ddl t) /\
  ((forall j, faults env j = None) -> 0 <= B ->
   success r = true /\ error r = None /\ statements_sent (trace st) = [t_ddl t]).
Proof.
  intros Hfind Habsent Hrun.
  assert (Hsame : Str.replace (qualifier sp) (qualifier tp) (t_ddl t) = t_ddl t).
  { rewrite (StrFacts.replace_nonempty _ _ _ (qualifier_nonempty sp)).
    apply StrFacts.replace_from_absent. exact Habsent. }
  destruct (migrate_table_found tbl sp tp B env t Hfind)
    as (k & st' & o & st1 & Hrun' & _ & _ & _ & _ & _ & _ & Hs & Ho).
  rewrite Hrun in Hrun'. injection Hrun' as -> ->.
  rewrite Hsame in Hs, Ho.
  split.
  - intros sql Hin. destruct Hs as [Hs|Hs]; rewrite Hs in Hin; [inversion Hin|].
    now apply list_elem_of_singleton in Hin.
  - intros Hquiet HB. destruct o as [[]|e| |]; try contradiction.
    + destruct Ho as (Hok & Herr & Hsent & _). auto.
    + destruct Ho as (_ & _ & [[j Hj]|Hneg]); [|lia].
      rewrite Hquiet in Hj. discriminate.
Qed.

Lemma translation_without_qualifier_is_silent_witness :
  let x := Scenario.migrate Scenario.quiet "CUSTOMERS" 2 in
  let r := Scenario.returned x in
  let st := snd x in
  (find_table (catalog Scenario.quiet) "SRC" "PUBLIC" "CUSTOMERS" = Some Scenario.customers /\
   ~ Str.occurs_in "SRC.PUBLIC" (t_ddl Scenario.customers) /\
   x = (Returned r, st)) /\
  (forall sql, sql ∈ statements_sent (trace st) -> sql = t_ddl Scenario.customers) /\
  ((forall j, faults Scenario.quiet j = None) -> 0 <= 2 ->
   success r = true /\ error r = None /\
   statements_sent (trace st) = [t_ddl Scenario.customers]).
Proof.
  cbv zeta.
  assert (Habsent : ~ Str.occurs_in "SRC.PUBLIC" (t_ddl Scenario.customers)).
  { intros H. apply StrFacts.contains_spec in H. vm_compute in H. discriminate. }
  split; [split; [vm_compute; reflexivity | split; [exact Habsent | vm_compute; reflexivity]]|].
  apply (translation_without_qualifier_is_silent
           "CUSTOMERS" Scenario.source_profile Scenario.target_profile 2 Scenario.quiet
           Scenario.customers);
    [vm_compute; reflexivity | exact Habsent | vm_compute; reflexivity].
Defined.

(** C8 as the specification states it fails: the definition of CUSTOMERS
    does not contain the source qualifier, and the run goes on with the
    unchanged definition, succeeds, records no error, and no call of its
    trace reports anything. *)
Lemma no_op_translation_not_signalled :
  let x := Scenario.migrate Scenario.quiet "CUSTOMERS" 2 in
  ~ Str.occurs_in (qualifier Scenario.source_profile) (t_ddl Scenario.customers) /\
  statements_sent (trace (snd x)) = [t_ddl Scenario.customers] /\
  success (Scenario.returned x) = true /\
  error (Scenario.returned x) = None /\
  no_failure (trace (snd x)).
Proof.
  cbv zeta. split.
  { intros H. apply StrFacts.contains_spec in H. vm_compute in H. discriminate. }
  split; [vm_compute; reflexivity|].
  split; [vm_compute; reflexivity|].
  split; [vm_compute; reflexivity|].
  unfold no_failure. vm_compute. repeat constructor.
Qed.

(** ** [get_tables] *)

Lemma render_names (names : list string) :
  List.map render (List.map VStr names) = names.
Proof. induction names as [|n names IH]; [reflexivity|]. cbn. now rewrite IH. Qed.


Lemma run_bind {R A} (m : M R A) (k : A -> M R Empty_set) env st :
  run (bind m k) env st =
    match m env st with
    | (Normal a, st') => run (k a) env st'
    | (Raise e, st') => (Raised e, st')
    | (Return r, st') => (Returned r, st')
    | (Diverge, st') => (Diverged, st')
    end.
Proof. unfold run, bind. destruct (m env st) as [[a|e|r|] st']; reflexivity. Qed.

(** The [try] block of [get_tables]: the names of the schema's tables,
    unless one of its four connector calls fails. *)
Lemma listing_block (p : ConnectionProfile) env :
  let block : M (list string) (list string) :=
    (connect Source p ;;
     cursor Source ;;
     execute_query (SelectTableNames (database p) (schema p)) ;;
     fetched <- fetchall ;;
     names <- first_column fetched ;;
     ret (List.map render names))%py in
  (exists st,
     block env new_frame = (Normal (list_tables (catalog env) p), st) /\
     forall k, (k < 4)%nat -> faults env k = None) \/
  (exists msg k st,
     (k < 4)%nat /\ faults env k = Some msg /\
     block env new_frame = (Raise (Exception msg), st)).
Proof.
  intros block. subst block.
  rewrite bind_connect; frame_goal.
  destruct (faults env 0) as [msg|] eqn:F0;
    [right; exists msg, 0%nat; eexists; split; [lia|split; [exact F0|reflexivity]]|].
  rewrite bind_cursor; frame_goal.
  destruct (faults env 1) as [msg|] eqn:F1;
    [right; exists msg, 1%nat; eexists; split; [lia|split; [exact F1|reflexivity]]|].
  rewrite bind_execute_query; frame_goal.
  destruct (faults env 2) as [msg|] eqn:F2;
    [right; exists msg, 2%nat; eexists; split; [lia|split; [exact F2|reflexivity]]|].
  cbn [answer].
  rewrite bind_fetchall; frame_goal.
  destruct (faults env 3) as [msg|] eqn:F3;
    [right; exists msg, 3%nat; eexists; split; [lia|split; [exact F3|reflexivity]]|].
  left. eexists. split.
  - rewrite <- (map_map t_name (fun c => [VStr c])).
    unfold bind at 1. rewrite first_column_names.
    unfold ret. rewrite render_names. reflexivity.
  - intros k Hk.
    destruct k as [|[|[|[|k]]]]; try assumption. lia.
Qed.

(** [get_tables] lists the tables of the schema, or raises the error of
    the connector under its own heading. *)
Lemma get_tables_spec (p : ConnectionProfile) env :
  (fst (run (get_tables p) env new_frame) = Returned (list_tables (catalog env) p) /\
   forall k, (k < 4)%nat -> faults env k = None) \/
  exists msg k,
    (k < 4)%nat /\ faults env k = Some msg /\
    fst (run (get_tables p) env new_frame)
    = Raised (Exception ("Error fetching tables: " ++ msg)%string).
Proof.
  unfold get_tables. rewrite run_bind. unfold try_finally, try_except.
  destruct (listing_block p env) as [(st & Hb & Hq)|(msg & k & st & Hk & Hf & Hb)];
    cbv zeta in Hb; rewrite Hb.
  - left. split; [reflexivity | exact Hq].
  - right. exists msg, k. split; [exact Hk|]. split; [exact Hf | reflexivity].
Qed.

(** ** The thread pool *)

Lemma submit_spec (max_workers : Z) (tbl : string) (p : Pool) :
  0 < max_workers ->
  fst (submit max_workers tbl p) = length (futures p) /\
  length (futures (snd (submit max_workers tbl p))) = S (length (futures p)) /\
  unfinished (snd (submit max_workers tbl p))
    ≡ₚ unfinished p ++ [(length (futures p), tbl)] /\
  running (snd (submit max_workers tbl p)) <> [] /\
  finished (snd (submit max_workers tbl p)) = finished p /\
  target (snd (submit max_workers tbl p)) = target p.
Proof.
  intros Hmw. unfold submit, unfinished.
  destruct (Z.of_nat (length (running p)) <? max_workers) eqn:E; cbn.
  - split; [reflexivity|]. split; [rewrite length_app; simpl; lia|].
    split; [|split; [destruct (running p); discriminate | split; reflexivity]].
    rewrite <- !app_assoc. apply Permutation_app_head, Permutation_app_comm.
  - split; [reflexivity|]. split; [rewrite length_app; simpl; lia|].
    split; [rewrite app_assoc; reflexivity|].
    split; [|split; reflexivity].
    apply Z.ltb_ge in E. destruct (running p); [simpl in E; lia | discriminate].
Qed.

Lemma submit_all_spec (max_workers : Z) (tables : list string) (p : Pool) :
  0 < max_workers -> staffed p ->
  fst (submit_all max_workers tables p)
  = imap (fun i tbl => (length (futures p) + i, tbl)%nat) tables /\
  length (futures (snd (submit_all max_workers tables p)))
  = (length (futures p) + length tables)%nat /\
  unfinished (snd (submit_all max_workers tables p))
    ≡ₚ unfinished p ++ fst (submit_all max_workers tables p) /\
  staffed (snd (submit_all max_workers tables p)) /\
  finished (snd (submit_all max_workers tables p)) = finished p /\
  target (snd (submit_all max_workers tables p)) = target p.
Proof.
  intros Hmw. revert p. induction tables as [|tbl tables IH]; intros p Hp.
  - cbn. rewrite app_nil_r, Nat.add_0_r. auto 10.
  - cbn [submit_all].
    destruct (submit_spec max_workers tbl p Hmw) as (Hf & Hl & Hu & Hr & Hfin & Htg).
    destruct (submit max_workers tbl p) as [future p1]. cbn [fst snd] in *.
    assert (Hp1 : staffed p1) by (intros E; contradiction).
    destruct (IH p1 Hp1) as (Hf' & Hl' & Hu' & Hs' & Hfin' & Htg').
    destruct (submit_all max_workers tables p1) as [ftt p2]. cbn [fst snd] in *.
    subst future ftt.
    split.
    { rewrite imap_cons, Nat.add_0_r. f_equal.
      apply imap_ext. intros i x _. cbn. f_equal. lia. }
    split; [cbn [length]; lia|].
    split.
    { rewrite Hu', Hu, <- app_assoc. cbn [app]. reflexivity. }
    split; [exact Hs'|]. split; congruence.
Qed.


Lemma complete_one_idle w sp tp B choice (p : Pool) :
  running p = [] -> complete_one w sp tp B choice p = p.
Proof. intros E. unfold complete_one. rewrite E. reflexivity. Qed.

(** A completion takes one item out of the pool, resolves its future and
    lets the oldest queued item start. *)
Lemma complete_one_busy w sp tp B choice (p : Pool) :
  running p <> [] ->
  exists item,
    item ∈ running p /\
    unfinished p ≡ₚ item :: unfinished (complete_one w sp tp B choice p) /\
    futures (complete_one w sp tp B choice p)
    = <[fst item := Some (fst (run_item w sp tp B item))]> (futures p) /\
    finished (complete_one w sp tp B choice p) = finished p ++ [fst item] /\
    target (complete_one w sp tp B choice p)
    = target p ++ committed (snd (run_item w sp tp B item)) /\
    staffed (complete_one w sp tp B choice p).
Proof.
  intros Hr. unfold complete_one.
  assert (Hi : (choice mod length (running p) < length (running p))%nat).
  { apply Nat.mod_upper_bound. destruct (running p); [congruence | discriminate]. }
  destruct (lookup_lt_is_Some_2 _ _ Hi) as [item Hitem]. rewrite Hitem.
  exists item. destruct (run_item w sp tp B item) as [c st]. cbn.
  split; [eapply list_elem_of_lookup_2; exact Hitem|].
  split.
  { unfold unfinished. cbn. rewrite <- app_assoc.
    replace (take 1 (queue p) ++ tail (queue p)) with (queue p)
      by (destruct (queue p); reflexivity).
    rewrite (delete_Permutation _ _ _ Hitem) at 1. reflexivity. }
  do 3 (split; [reflexivity|]).
  unfold staffed. cbn. intros E. apply app_eq_nil in E as [_ E].
  destruct (queue p); [reflexivity | discriminate].
Qed.

Lemma complete_one_tracks w sp tp B ftt choice (p : Pool) :
  (forall a b : work_item, a ∈ ftt -> b ∈ ftt -> fst a = fst b -> a = b) ->
  tracks w sp tp B ftt p ->
  tracks w sp tp B ftt (complete_one w sp tp B choice p) /\
  (length (unfinished (complete_one w sp tp B choice p))
   = pred (length (unfinished p)))%nat.
Proof.
  intros Hco (Hst & Hsub & Hlt & Hres).
  destruct (decide (running p = [])) as [Hrun|Hrun].
  { rewrite complete_one_idle by exact Hrun.
    split; [repeat split; assumption|].
    unfold unfinished. rewrite Hrun, (Hst Hrun). reflexivity. }
  destruct (complete_one_busy w sp tp B choice p Hrun)
    as (item & Hin & Hperm & Hfut & _ & _ & Hst').
  assert (Hitem : item ∈ ftt).
  { apply Hsub. unfold unfinished. apply elem_of_app. left. exact Hin. }
  split.
  - split; [exact Hst'|]. split.
    { intros y Hy. apply Hsub. rewrite Hperm. apply elem_of_cons. right. exact Hy. }
    split.
    { intros y Hy. rewrite Hfut, length_insert. apply Hlt, Hy. }
    intros y Hy. rewrite Hfut.
    destruct (decide (fst y = fst item)) as [E|E].
    + right. rewrite (Hco y item Hy Hitem E).
      apply list_lookup_insert_eq, Hlt, Hitem.
    + destruct (Hres y Hy) as [Hu|Hf].
      * left. rewrite Hperm in Hu. apply elem_of_cons in Hu as [->|Hu];
          [congruence | exact Hu].
      * right. rewrite list_lookup_insert_ne by congruence. exact Hf.
  - rewrite Hperm. reflexivity.
Qed.

(** Once as many items have finished as were in the pool, none is left. *)
Lemma drain_tracks w sp tp B ftt (n : nat) :
  (forall a b : work_item, a ∈ ftt -> b ∈ ftt -> fst a = fst b -> a = b) ->
  forall k p,
    tracks w sp tp B ftt p -> (length (unfinished p) <= n)%nat ->
    tracks w sp tp B ftt (drain w sp tp B n k p) /\
    unfinished (drain w sp tp B n k p) = [].
Proof.
  intros Hco. induction n as [|n IH]; intros k p Ht Hn.
  - cbn. split; [exact Ht|]. destruct (unfinished p); [reflexivity | simpl in Hn; lia].
  - cbn [drain].
    destruct (complete_one_tracks w sp tp B ftt (completes w k) p Hco Ht) as [Ht' Hl].
    apply IH; [exact Ht' | lia].
Qed.

Lemma numbered_coherent (tables : list string) (a b : work_item) :
  a ∈ numbered tables -> b ∈ numbered tables -> fst a = fst b -> a = b.
Proof.
  unfold numbered. intros Ha Hb E.
  apply list_elem_of_lookup_1 in Ha as [i Ha], Hb as [j Hb].
  rewrite list_lookup_imap in Ha, Hb.
  destruct (tables !! i) as [s|] eqn:Hi; [|discriminate].
  destruct (tables !! j) as [t|] eqn:Hj; [|discriminate].
  cbn in Ha, Hb. injection Ha as <-. injection Hb as <-. cbn in E. subst j.
  congruence.
Qed.

Lemma task_returns w sp tp B (item : work_item) :
  fst (run_item w sp tp B item) = Returned (item_result w sp tp B item).
Proof.
  unfold item_result, task_result. destruct item as [i tbl]. cbn [fst snd].
  unfold run_item. cbn [fst snd].
  destruct (migrate_table_returns tbl sp tp B (task_env w i)) as [st ->].
  reflexivity.
Qed.

(** Every future resolved: the loop over [future_to_table] appends the
    results in the order of the dictionary. *)
Lemma collect_resolved w sp tp B (p : Pool) (ftt : list work_item) :
  (forall item, item ∈ ftt ->
     futures p !! fst item = Some (Some (fst (run_item w sp tp B item)))) ->
  forall results,
    collect p ftt results
    = Returned (results ++ List.map (item_result w sp tp B) ftt).
Proof.
  induction ftt as [|[i tbl] ftt IH]; intros H results.
  - cbn. now rewrite app_nil_r.
  - cbn [collect List.map].
    pose proof (H (i, tbl) (list_elem_of_here _ _)) as Hi.
    cbn [fst] in Hi. rewrite Hi, task_returns.
    rewrite IH by (intros y Hy; apply H, list_elem_of_further, Hy).
    now rewrite <- app_assoc.
Qed.

(** The orchestrator, once the listing is there and the pool could be
    made: it returns, and the result at position [i] is what the task for
    the table at position [i] of the listing returned. *)
Lemma migrate_all_tables_spec w sp tp B max_workers (tables : list string) :
  fst (run (get_tables sp) (listing_env w) new_frame) = Returned tables ->
  0 < max_workers ->
  fst (migrate_all_tables w sp tp B max_workers)
  = Returned (imap (task_result w sp tp B) tables).
Proof.
  intros Hlist Hmw. unfold migrate_all_tables.
  destruct (run (get_tables sp) (listing_env w) new_frame) as [c st0].
  cbn [fst] in Hlist. subst c.
  destruct (Z.leb_spec max_workers 0) as [|_]; [lia|].
  destruct (submit_all_spec max_workers tables new_pool Hmw)
    as (Hf & Hl & Hu & Hs & _ & _); [intros _; reflexivity|].
  destruct (submit_all max_workers tables new_pool) as [ftt p]. cbn [fst snd] in *.
  change (imap _ tables) with (numbered tables) in Hf. 
  assert (Ht : tracks w sp tp B ftt p).
  { split; [exact Hs|]. split.
    { intros y Hy. rewrite Hu in Hy. exact Hy. }
    split.
    { intros y Hy. rewrite Hl. subst ftt. unfold numbered in Hy.
      apply list_elem_of_lookup_1 in Hy as [i Hy]. rewrite list_lookup_imap in Hy.
      destruct (tables !! i) as [s|] eqn:Hi; [|discriminate].
      injection Hy as <-. cbn. apply lookup_lt_Some in Hi. exact Hi. }
    intros y Hy. left. rewrite Hu. exact Hy. }
  assert (Hn : (length (unfinished p) <= length tables)%nat).
  { rewrite Hu. subst ftt. unfold numbered. cbn. rewrite length_imap. lia. }
  assert (Hco : forall a b : work_item, a ∈ ftt -> b ∈ ftt -> fst a = fst b -> a = b)
    by (subst ftt; apply numbered_coherent).
  destruct (drain_tracks w sp tp B ftt (length tables) Hco 0%nat p Ht Hn)
    as ((_ & _ & _ & Hres) & Hnone).
  cbn [fst].
  rewrite (collect_resolved w sp tp B).
  - cbn [app]. subst ftt. unfold numbered.
    change (List.map ?f ?l) with (f <$> l). rewrite fmap_imap.
    reflexivity.
  - intros y Hy. destruct (Hres y Hy) as [Hu'|Hf']; [|exact Hf'].
    rewrite Hnone in Hu'. inversion Hu'.
Qed.

(** ** What a task hands to its future *)

(** The result of a call names its table, and either reports success, or
    carries the text of the exception that ended the [try] block. *)
Lemma migrate_table_verdict tbl sp tp B env r st :
  run (migrate_table tbl sp tp B) env new_frame = (Returned r, st) ->
  table r = tbl /\
  (success r = true /\ error r = None /\
   (exists st1, migrate_table_body tbl sp tp B env (entry tbl) = (Normal tt, st1)) \/
   success r = false /\
   exists e st1,
     migrate_table_body tbl sp tp B env (entry tbl) = (Raise e, st1) /\
     error r = Some (str e)).
Proof.
  intros Hrun.
  destruct (find_table (catalog env) (database sp) (schema sp) tbl) as [t|] eqn:Hfind.
  - destruct (migrate_table_found tbl sp tp B env t Hfind)
      as (k & st' & o & st1 & Hrun' & Hbody & Htbl & _ & _ & _ & _ & _ & Ho).
    rewrite Hrun in Hrun'. injection Hrun' as -> ->.
    split; [exact Htbl|].
    destruct o as [[]|e| |]; try contradiction.
    + left. destruct Ho as (Hs & He & _). eauto.
    + right. destruct Ho as (Hs & He & _). eauto.
  - destruct (migrate_table_missing tbl sp tp B env Hfind)
      as (st' & e & st1 & Hrun' & Hbody & Hr & _).
    rewrite Hrun in Hrun'. injection Hrun' as -> ->.
    rewrite Hr. cbn. split; [reflexivity|]. right. eauto.
Qed.

Lemma task_result_run w sp tp B (i : nat) (tbl : string) :
  exists st,
    run (migrate_table tbl sp tp B) (task_env w i) new_frame
    = (Returned (task_result w sp tp B i tbl), st).
Proof.
  unfold task_result, run_item. cbn [fst snd].
  destruct (migrate_table_returns tbl sp tp B (task_env w i)) as [st Hst].
  exists st. rewrite Hst. reflexivity.
Qed.

Lemma task_result_table w sp tp B (i : nat) (tbl : string) :
  table (task_result w sp tp B i tbl) = tbl.
Proof.
  destruct (task_result_run w sp tp B i tbl) as [st Hst].
  apply (migrate_table_verdict _ _ _ _ _ _ _ Hst).
Qed.

Lemma result_tables_tasks w sp tp B (tables : list string) :
  result_tables (imap (task_result w sp tp B) tables) = tables.
Proof.
  unfold result_tables. change (List.map ?f ?l) with (f <$> l).
  rewrite fmap_imap.
  rewrite (imap_ext _ (const id)) by (intros; apply task_result_table).
  rewrite imap_const. apply list_fmap_id.
Qed.

(** The scheduler has no part in the listing nor in what a task does. *)
Lemma task_result_schedule (s : nat -> nat) w sp tp B (i : nat) (tbl : string) :
  task_result (with_schedule s w) sp tp B i tbl = task_result w sp tp B i tbl.
Proof. reflexivity. Qed.

Lemma migrate_all_tables_schedule (s : nat -> nat) w sp tp B max_workers :
  fst (migrate_all_tables (with_schedule s w) sp tp B max_workers)
  = fst (migrate_all_tables w sp tp B max_workers).
Proof.
  destruct (run (get_tables sp) (listing_env w) new_frame) as [c st0] eqn:Hrun.
  destruct (Z.leb_spec max_workers 0) as [Hle|Hlt].
  - unfold migrate_all_tables.
    change (listing_env (with_schedule s w)) with (listing_env w).
    rewrite Hrun. destruct c; [|reflexivity..].
    destruct (Z.leb_spec max_workers 0); [reflexivity | lia].
  - destruct c as [tables|e|].
    + assert (Hlist : fst (run (get_tables sp) (listing_env w) new_frame)
                      = Returned tables) by (rewrite Hrun; reflexivity).
      rewrite (migrate_all_tables_spec w sp tp B max_workers tables) by assumption.
      apply (migrate_all_tables_spec (with_schedule s w)); assumption.
    + unfold migrate_all_tables.
      change (listing_env (with_schedule s w)) with (listing_env w).
      rewrite Hrun. reflexivity.
    + unfold migrate_all_tables.
      change (listing_env (with_schedule s w)) with (listing_env w).
      rewrite Hrun. reflexivity.
Qed.

(** ** [migrate_all_tables]: what the orchestrator returns *)

(** C1. Once the tables are listed and the pool is made, the orchestrator
    returns and raises nothing, whatever happens in the tasks. There is
    one result per table, at the table's position; it is what the table's
    own task returned, a task that sees nothing of the other tasks. When
    the copy of a table ends with an exception, its result has the success
    flag false and the text of the exception as error, and the other
    tables have their results all the same. *)
Theorem migrate_all_tables_isolates_failures w sp tp B max_workers
    (tables : list string) :
  fst (run (get_tables sp) (listing_env w) new_frame) = Returned tables ->
  0 < max_workers ->
  exists results,
    fst (migrate_all_tables w sp tp B max_workers) = Returned results /\
    length results = length tables /\
    forall i tbl, tables !! i = Some tbl ->
      exists r st,
        results !! i = Some r /\
        run (migrate_table tbl sp tp B) (task_env w i) new_frame = (Returned r, st) /\
        table r = tbl /\
        (success r = false -> exists msg, error r = Some msg) /\
        (forall e st1,
           migrate_table_body tbl sp tp B (task_env w i) (entry tbl) = (Raise e, st1) ->
           success r = false /\ error r = Some (str e)).
Proof.
  intros Hlist Hmw.
  exists (imap (task_result w sp tp B) tables).
  split; [apply migrate_all_tables_spec; assumption|].
  split; [apply length_imap|].
  intros i tbl Hi.
  destruct (task_result_run w sp tp B i tbl) as [st Hst].
  exists (task_result w sp tp B i tbl), st.
  split; [rewrite list_lookup_imap, Hi; reflexivity|].
  split; [exact Hst|].
  destruct (migrate_table_verdict _ _ _ _ _ _ _ Hst)
    as [Htbl [(Hs & He & st1 & Hb)|(Hs & e & st1 & Hb & He)]].
  - split; [exact Htbl|]. split; [congruence|].
    intros e st2 Hb'. rewrite Hb in Hb'. discriminate.
  - split; [exact Htbl|]. split; [eauto|].
    intros e' st2 Hb'. rewrite Hb in Hb'. injection Hb' as -> _. auto.
Qed.

Lemma migrate_all_tables_isolates_failures_witness :
  (fst (run (get_tables Scenario.source_profile) (listing_env Scenario.world) new_frame)
   = Returned ["ORDERS"; "CUSTOMERS"]%string /\ 0 < 2) /\
  exists results,
    fst (migrate_all_tables Scenario.world Scenario.source_profile
           Scenario.target_profile 2 2) = Returned results /\
    length results = length ["ORDERS"; "CUSTOMERS"]%string /\
    forall i tbl, ["ORDERS"; "CUSTOMERS"]%string !! i = Some tbl ->
      exists r st,
        results !! i = Some r /\
        run (migrate_table tbl Scenario.source_profile Scenario.target_profile 2)
            (task_env Scenario.world i) new_frame = (Returned r, st) /\
        table r = tbl /\
        (success r = false -> exists msg, error r = Some msg) /\
        (forall e st1,
           migrate_table_body tbl Scenario.source_profile Scenario.target_profile 2
             (task_env Scenario.world i) (entry tbl) = (Raise e, st1) ->
           success r = false /\ error r = Some (str e)).
Proof.
  split; [split; [vm_compute; reflexivity | lia]|].
  apply (migrate_all_tables_isolates_failures
           Scenario.world Scenario.source_profile Scenario.target_profile 2 2
           ["ORDERS"; "CUSTOMERS"]%string);
    [vm_compute; reflexivity | lia].
Defined.

(** C2. For a list of tables without duplicates and any number of workers
    (a positive one: the pool cannot be made otherwise), the orchestrator
    returns exactly one result per table: as many results as tables, the
    names of the results are the names of the tables, each once. *)
Theorem migrate_all_tables_one_result_per_table w sp tp B max_workers
    (tables : list string) :
  fst (run (get_tables sp) (listing_env w) new_frame) = Returned tables ->
  NoDup tables ->
  0 < max_workers ->
  exists results,
    fst (migrate_all_tables w sp tp B max_workers) = Returned results /\
    length results = length tables /\
    NoDup (result_tables results) /\
    (forall tbl, tbl ∈ result_tables results <-> tbl ∈ tables) /\
    (forall tbl, tbl ∈ tables ->
       exists i r, results !! i = Some r /\ table r = tbl /\
         forall j r', results !! j = Some r' -> table r' = tbl -> j = i).
Proof.
  intros Hlist Hnd Hmw.
  exists (imap (task_result w sp tp B) tables).
  split; [apply migrate_all_tables_spec; assumption|].
  split; [apply length_imap|].
  rewrite result_tables_tasks.
  split; [exact Hnd|]. split; [reflexivity|].
  intros tbl Hin. apply list_elem_of_lookup_1 in Hin as [i Hi].
  exists i, (task_result w sp tp B i tbl).
  split; [rewrite list_lookup_imap, Hi; reflexivity|].
  split; [apply task_result_table|].
  intros j r' Hj Ht. rewrite list_lookup_imap in Hj.
  destruct (tables !! j) as [tbl'|] eqn:Hj'; [|discriminate].
  injection Hj as <-. rewrite task_result_table in Ht. subst tbl'.
  eapply NoDup_lookup; eassumption.
Qed.

Lemma migrate_all_tables_one_result_per_table_witness :
  (fst (run (get_tables Scenario.source_profile) (listing_env Scenario.world) new_frame)
   = Returned ["ORDERS"; "CUSTOMERS"]%string /\
   NoDup ["ORDERS"; "CUSTOMERS"]%string /\ 0 < 1) /\
  exists results,
    fst (migrate_all_tables Scenario.world Scenario.source_profile
           Scenario.target_profile 2 1) = Returned results /\
    length results = length ["ORDERS"; "CUSTOMERS"]%string /\
    NoDup (result_tables results) /\
    (forall tbl, tbl ∈ result_tables results <-> tbl ∈ ["ORDERS"; "CUSTOMERS"]%string) /\
    (forall tbl, tbl ∈ ["ORDERS"; "CUSTOMERS"]%string ->
       exists i r, results !! i = Some r /\ table r = tbl /\
         forall j r', results !! j = Some r' -> table r' = tbl -> j = i).
Proof.
  assert (Hnd : NoDup ["ORDERS"; "CUSTOMERS"]%string).
  { apply NoDup_cons_2; [|apply NoDup_singleton].
    intros H. apply list_elem_of_singleton in H. discriminate. }
  split; [split; [vm_compute; reflexivity | split; [exact Hnd | lia]]|].
  apply (migrate_all_tables_one_result_per_table
           Scenario.world Scenario.source_profile Scenario.target_profile 2 1
           ["ORDERS"; "CUSTOMERS"]%string);
    [vm_compute; reflexivity | exact Hnd | lia].
Defined.

(** C5, as the code has it. [migrate_all_tables] has no parameter for
    table names. It lists the tables of the schema its source profile
    names and runs the copy over every one of them: when the listing goes
    through and the pool can be made, the results are those of the listed
    tables, one each, in the order of the listing. *)
Theorem migrate_all_tables_covers_the_schema w sp tp B max_workers :
  (forall k, (k < 4)%nat -> listing_faults w k = None) ->
  0 < max_workers ->
  exists results,
    fst (migrate_all_tables w sp tp B max_workers) = Returned results /\
    result_tables results = list_tables (source_account w) sp /\
    length results = length (list_tables (source_account w) sp).
Proof.
  intros Hquiet Hmw.
  destruct (get_tables_spec sp (listing_env w))
    as [[Hlist _]|(msg & k & Hk & Hf & _)].
  - exists (imap (task_result w sp tp B) (list_tables (source_account w) sp)).
    split; [apply migrate_all_tables_spec; assumption|].
    split; [apply result_tables_tasks | apply length_imap].
  - cbn in Hf. rewrite (Hquiet k Hk) in Hf. discriminate.
Qed.

Lemma migrate_all_tables_covers_the_schema_witness :
  ((forall k, (k < 4)%nat -> listing_faults Scenario.world k = None) /\ 0 < 4) /\
  exists results,
    fst (migrate_all_tables Scenario.world Scenario.source_profile
           Scenario.target_profile 2 4) = Returned results /\
    result_tables results
    = list_tables (source_account Scenario.world) Scenario.source_profile /\
    length results
    = length (list_tables (source_account Scenario.world) Scenario.source_profile).
Proof.
  split; [split; [reflexivity | lia]|].
  apply (migrate_all_tables_covers_the_schema
           Scenario.world Scenario.source_profile Scenario.target_profile 2 4);
    [reflexivity | lia].
Defined.

(** C5, as the specification has it, fails: a caller who wants ORDERS
    alone has nowhere to say so, and gets CUSTOMERS copied as well. *)
Lemma migrate_all_tables_takes_no_table_names :
  let requested := ["ORDERS"]%string in
  let x := migrate_all_tables Scenario.world Scenario.source_profile
             Scenario.target_profile 2 4 in
  (exists results, fst x = Returned results) /\
  result_tables (results_of x) = ["ORDERS"; "CUSTOMERS"]%string /\
  result_tables (results_of x) <> requested.
Proof.
  cbv zeta. split; [eexists; vm_compute; reflexivity|].
  split; [vm_compute; reflexivity|].
  vm_compute. discriminate.
Qed.

(** C6, as the code has it. The results are appended in the order of
    submission, which is the order of the listing: the loop goes through
    [future_to_table] and waits for each future in turn. The scheduler,
    and with it the order in which the tasks complete, changes nothing of
    what the orchestrator returns, order included. *)
Theorem migrate_all_tables_order_is_submission_order w sp tp B max_workers
    (s : nat -> nat) :
  fst (migrate_all_tables (with_schedule s w) sp tp B max_workers)
  = fst (migrate_all_tables w sp tp B max_workers) /\
  forall tables,
    fst (run (get_tables sp) (listing_env w) new_frame) = Returned tables ->
    0 < max_workers ->
    exists results,
      fst (migrate_all_tables (with_schedule s w) sp tp B max_workers)
      = Returned results /\
      result_tables results = tables.
Proof.
  split; [apply migrate_all_tables_schedule|].
  intros tables Hlist Hmw.
  exists (imap (task_result w sp tp B) tables).
  split; [|apply result_tables_tasks].
  rewrite migrate_all_tables_schedule.
  apply migrate_all_tables_spec; assumption.
Qed.

Lemma migrate_all_tables_order_is_submission_order_witness :
  (fst (run (get_tables Scenario.source_profile) (listing_env Scenario.world) new_frame)
   = Returned ["ORDERS"; "CUSTOMERS"]%string /\ 0 < 2) /\
  fst (migrate_all_tables (with_schedule (fun _ => 0%nat) Scenario.world)
         Scenario.source_profile Scenario.target_profile 2 2)
  = fst (migrate_all_tables Scenario.world
           Scenario.source_profile Scenario.target_profile 2 2) /\
  exists results,
    fst (migrate_all_tables (with_schedule (fun _ => 0%nat) Scenario.world)
           Scenario.source_profile Scenario.target_profile 2 2)
    = Returned results /\
    result_tables results = ["ORDERS"; "CUSTOMERS"]%string.
Proof.
  assert (Hlist :
    fst (run (get_tables Scenario.source_profile) (listing_env Scenario.world) new_frame)
    = Returned ["ORDERS"; "CUSTOMERS"]%string) by (vm_compute; reflexivity).
  split; [split; [exact Hlist | lia]|].
  destruct (migrate_all_tables_order_is_submission_order
              Scenario.world Scenario.source_profile Scenario.target_profile 2 2
              (fun _ => 0%nat)) as [Hsame Horder].
  split; [exact Hsame|].
  apply Horder; [exact Hlist | lia].
Defined.

(** C6, as the specification has it, fails. With two workers CUSTOMERS
    completes before ORDERS, and the results come in the order of
    submission nevertheless, ORDERS first: the same sequence as when the
    tasks complete in the order they were submitted. *)
Lemma results_do_not_follow_completion_order :
  let x := migrate_all_tables Scenario.world Scenario.source_profile
             Scenario.target_profile 2 2 in
  let y := migrate_all_tables Scenario.world_in_order Scenario.source_profile
             Scenario.target_profile 2 2 in
  finished (snd x) = [1; 0]%nat /\
  finished (snd y) = [0; 1]%nat /\
  result_tables (results_of x) = ["ORDERS"; "CUSTOMERS"]%string /\
  result_tables (results_of x) <> ["CUSTOMERS"; "ORDERS"]%string /\
  fst x = fst y.
Proof.
  cbv zeta.
  split; [vm_compute; reflexivity|].
  split; [vm_compute; reflexivity|].
  split; [vm_compute; reflexivity|].
  split; [vm_compute; discriminate|].
  vm_compute; reflexivity.
Qed.

(** ** [test_connection] *)

(** X3. The connection test never raises: it answers [True] when the
    connection, the cursor and the probe statement all went through, and
    [False] as soon as one of them fails. *)
Theorem test_connection_answers (s : side) (p : ConnectionProfile) env :
  exists b st,
    run (test_connection s p) env new_frame = (Returned b, st) /\
    (b = true <-> forall k, (k < 3)%nat -> faults env k = None).
Proof.
  unfold test_connection, run, try_except.
  rewrite bind_connect; frame_goal.
  destruct (faults env 0) as [msg|] eqn:F0.
  { eexists false, _. split; [reflexivity|]. split; [discriminate|].
    intros H. rewrite (H 0%nat) in F0 by lia. discriminate. }
  rewrite bind_cursor; frame_goal.
  destruct (faults env 1) as [msg|] eqn:F1.
  { eexists false, _. split; [reflexivity|]. split; [discriminate|].
    intros H. rewrite (H 1%nat) in F1 by lia. discriminate. }
  unfold select_one. rewrite bind_attempt; frame_goal.
  destruct (faults env 2) as [msg|] eqn:F2.
  { eexists false, _. split; [reflexivity|]. split; [discriminate|].
    intros H. rewrite (H 2%nat) in F2 by lia. discriminate. }
  eexists true, _. split; [reflexivity|]. split; [|reflexivity].
  intros _ k Hk. destruct k as [|[|[|k]]]; try assumption. lia.
Qed.

(** X4. Where its connector calls fail or not, [test_connection] closes what
    it opened only on the way to [True]: a connection opened by a test
    that answers [False] is left open. *)
Theorem test_connection_closes_on_success_only (s : side) (p : ConnectionProfile) env :
  exists b st,
    run (test_connection s p) env new_frame = (Returned b, st) /\
    if b
    then opened (trace st) = [conn_of s; cursor_of s] /\
         closed (trace st) = [cursor_of s; conn_of s]
    else closed (trace st) = [] /\
         opened (trace st) =
           match faults env 0, faults env 1 with
           | Some _, _ => []
           | None, Some _ => [conn_of s]
           | None, None => [conn_of s; cursor_of s]
           end.
Proof.
  unfold test_connection, run, try_except.
  rewrite bind_connect; frame_goal.
  destruct (faults env 0) as [msg|] eqn:F0.
  { eexists false, _. split; [reflexivity|]. split; reflexivity. }
  rewrite bind_cursor; frame_goal.
  destruct (faults env 1) as [msg|] eqn:F1.
  { eexists false, _. split; [reflexivity|]. split; reflexivity. }
  unfold select_one. rewrite bind_attempt; frame_goal.
  destruct (faults env 2) as [msg|] eqn:F2.
  { eexists false, _. split; [reflexivity|]. split; reflexivity. }
  eexists true, _. split; [reflexivity|]. split; reflexivity.
Qed.

(** ** [get_tables] *)

(** X1. [get_tables] returns the names of the tables of the schema, in the
    order the source lists them, when its four connector calls go
    through; when one of them fails it raises, and the message is the
    connector's under the heading of the function. It gives no partial
    list. *)
Theorem get_tables_lists_or_raises (p : ConnectionProfile) env :
  (fst (run (get_tables p) env new_frame) = Returned (list_tables (catalog env) p) /\
   forall k, (k < 4)%nat -> faults env k = None) \/
  exists msg k,
    (k < 4)%nat /\ faults env k = Some msg /\
    fst (run (get_tables p) env new_frame)
    = Raised (Exception ("Error fetching tables: " ++ msg)%string).
Proof. apply get_tables_spec. Qed.

Lemma listing_block_resources (p : ConnectionProfile) env :
  let block : M (list string) (list string) :=
    (connect Source p ;;
     cursor Source ;;
     execute_query (SelectTableNames (database p) (schema p)) ;;
     fetched <- fetchall ;;
     names <- first_column fetched ;;
     ret (List.map render names))%py in
  exists o st held,
    block env new_frame = (o, st) /\
    match o with Normal _ | Raise _ => True | _ => False end /\
    (held = [] \/ held = [source_conn] \/ held = [source_conn; source_cursor]) /\
    bound st = rev held /\
    opened (trace st) = held /\
    closed (trace st) = [] /\
    sent_to_target (trace st) = [].
Proof.
  intros block. subst block.
  rewrite bind_connect; frame_goal.
  destruct (faults env 0) as [msg|] eqn:F0.
  { eexists _, _, []. split; [reflexivity|]. split; [exact I|].
    split; [auto|]. do 3 (split; [reflexivity|]). reflexivity. }
  rewrite bind_cursor; frame_goal.
  destruct (faults env 1) as [msg|] eqn:F1.
  { eexists _, _, [source_conn]. split; [reflexivity|]. split; [exact I|].
    split; [auto|]. do 3 (split; [reflexivity|]). reflexivity. }
  rewrite bind_execute_query; frame_goal.
  destruct (faults env 2) as [msg|] eqn:F2.
  { eexists _, _, [source_conn; source_cursor].
    split; [reflexivity|]. split; [exact I|].
    split; [auto|]. do 3 (split; [reflexivity|]). reflexivity. }
  cbn [answer].
  rewrite bind_fetchall; frame_goal.
  destruct (faults env 3) as [msg|] eqn:F3.
  { eexists _, _, [source_conn; source_cursor].
    split; [reflexivity|]. split; [exact I|].
    split; [auto|]. do 3 (split; [reflexivity|]). reflexivity. }
  rewrite <- (map_map t_name (fun c => [VStr c])).
  unfold bind at 1. rewrite first_column_names. unfold ret.
  eexists _, _, [source_conn; source_cursor].
  split; [reflexivity|]. split; [exact I|].
  split; [auto|]. do 3 (split; [reflexivity|]). reflexivity.
Qed.

(** X2. However [get_tables] ends, it has closed the cursor and the
    connection it opened, the cursor first, closed each once and nothing
    else, and it has sent nothing to be executed but its one query. *)
Theorem get_tables_closes_what_it_opened (p : ConnectionProfile) env :
  let st := snd (run (get_tables p) env new_frame) in
  closed (trace st) = rev (opened (trace st)) /\
  NoDup (opened (trace st)) /\
  sent_to_target (trace st) = [].
Proof.
  cbv zeta. unfold get_tables. rewrite run_bind. unfold try_finally, try_except.
  destruct (listing_block_resources p env)
    as (o & st & held & Hb & Ho & Hheld & Hbound & Hopen & Hclosed & Hsent).
  cbv zeta in Hb. rewrite Hb.
  assert (Hfin : forall st0 : Store,
    bound st0 = bound st -> trace st0 = trace st ->
    let stF := snd ((close_cursor_if_bound Source ;; close_conn_if_bound Source)%py
                      env st0 : outcome (list string) unit * Store) in
    fst ((close_cursor_if_bound Source ;; close_conn_if_bound Source)%py env st0
         : outcome (list string) unit * Store) = Normal tt /\
    closed (trace stF) = rev (opened (trace stF)) /\
    NoDup (opened (trace stF)) /\ sent_to_target (trace stF) = []).
  { intros st0 Hb0 Ht0. cbv zeta.
    unfold close_cursor_if_bound, close_conn_if_bound, in_locals.
    rewrite bind_modify. unfold modify. cbn [fst snd cursor_of conn_of].
    rewrite Hb0, Hbound.
    destruct Hheld as [->|[->| ->]]; cbn [take rev app existsb local_eqb orb];
      frame_goal; rewrite ?Hb0, ?Hbound; cbn [take rev app existsb local_eqb orb];
      frame_goal; rewrite Ht0;
      unfold opened, closed, sent_to_target in *; rewrite ?omap_app, Hopen, Hclosed, Hsent;
      (split; [reflexivity|]); cbn; (split; [reflexivity|]);
      (split; [|reflexivity]);
      first [ apply NoDup_nil_2 | apply NoDup_singleton
            | apply NoDup_cons_2;
              [intros H; apply list_elem_of_singleton in H; discriminate
              |apply NoDup_singleton] ]. }
  destruct o as [names|e| |]; try contradiction.
  - destruct (Hfin st eq_refl eq_refl) as (Hn & Hrest).
    destruct ((close_cursor_if_bound Source ;; close_conn_if_bound Source)%py env st)
      as [o' st']. cbn [fst snd] in *. subst o'. cbn. exact Hrest.
  - unfold raise.
    destruct (Hfin st eq_refl eq_refl) as (Hn & Hrest).
    destruct ((close_cursor_if_bound Source ;; close_conn_if_bound Source)%py env st)
      as [o' st']. cbn [fst snd] in *. subst o'. cbn. exact Hrest.
Qed.

(** ** Blocks that open and close nothing *)

Lemma steady_ret {R A} (a : A) : steady (@ret R A a).
Proof. intros env st. split; [reflexivity|]. exists []. now rewrite app_nil_r. Qed.

Lemma steady_raise {R A} (msg : string) : steady (@raise R A msg).
Proof. intros env st. split; [reflexivity|]. exists []. now rewrite app_nil_r. Qed.

Lemma steady_bind {R A A'} (m : M R A) (k : A -> M R A') :
  steady m -> (forall a, steady (k a)) -> steady (bind m k).
Proof.
  intros Hm Hk env st. unfold bind.
  destruct (Hm env st) as (Hb & tr & Ht & Ho & Hc).
  destruct (m env st) as [[a|e|r|] st']; cbn [snd] in *;
    try (split; [exact Hb|]; exists tr; auto).
  destruct (Hk a env st') as (Hb' & tr' & Ht' & Ho' & Hc').
  split; [congruence|]. exists (tr ++ tr').
  rewrite Ht', Ht, <- app_assoc. split; [reflexivity|].
  unfold opened, closed in *. rewrite !omap_app, Ho, Ho', Hc, Hc'. auto.
Qed.

Lemma steady_attempt {R} (c : call) (r : response) :
  acquired (c, r) = None -> released (c, r) = None ->
  steady (@attempt R c r).
Proof.
  intros Ha Hr env st. unfold attempt.
  assert (Hf : forall msg, released (c, Failed msg) = None)
    by (intros msg; destruct c; solve [reflexivity | discriminate]).
  destruct (faults env (calls st)) as [msg|]; cbn [snd];
    (split; [reflexivity|]); eexists [_]; (split; [reflexivity|]);
    unfold opened, closed; cbn [omap list_omap].
  - rewrite Hf. destruct c; auto.
  - rewrite Ha, Hr. auto.
Qed.

Lemma steady_modify {R} (f : Store -> Store) :
  (forall st, bound (f st) = bound st /\ trace (f st) = trace st) ->
  steady (@modify R f).
Proof.
  intros Hf env st. cbn. destruct (Hf st) as [Hb Ht].
  split; [exact Hb|]. exists []. now rewrite app_nil_r.
Qed.

Lemma steady_execute_query {R} (q : query) : steady (@execute_query R q).
Proof.
  intros env st. unfold execute_query.
  destruct (faults env (calls st)) as [msg|];
    [|destruct (answer (catalog env) q) as [msg|rows]]; cbn [snd];
    (split; [reflexivity|]); eexists [_]; (split; [reflexivity|]); auto.
Qed.

Lemma steady_fetchone {R} : steady (@fetchone R).
Proof.
  unfold fetchone. apply steady_bind; [now apply steady_attempt|].
  intros _ env st. cbn. split; [reflexivity|]. exists []. now rewrite app_nil_r.
Qed.

Lemma steady_fetchall {R} : steady (@fetchall R).
Proof.
  unfold fetchall. apply steady_bind; [now apply steady_attempt|].
  intros _ env st. cbn. split; [reflexivity|]. exists []. now rewrite app_nil_r.
Qed.

Lemma steady_execute {R} (s : stmt) : steady (@execute R s).
Proof.
  unfold execute. apply steady_bind; [now apply steady_attempt|].
  intros _. apply steady_modify. intros st. split; reflexivity.
Qed.

Lemma steady_executemany {R} (s : stmt) : steady (@executemany R s).
Proof.
  unfold executemany. apply steady_bind; [now apply steady_attempt|].
  intros _. apply steady_modify. intros st. split; reflexivity.
Qed.

Lemma steady_commit {R} : steady (@commit R).
Proof.
  unfold commit. apply steady_bind; [now apply steady_attempt|].
  intros _. apply steady_modify. intros st. split; reflexivity.
Qed.

Lemma steady_first_column {R} (rows : list row) : steady (@first_column R rows).
Proof.
  induction rows as [|r rows IH]; [apply steady_ret|].
  cbn [first_column]. apply steady_bind.
  - destruct r; [apply steady_raise | apply steady_ret].
  - intros c. apply steady_bind; [exact IH|]. intros cs. apply steady_ret.
Qed.

Lemma steady_copy_loop (fuel : nat) tbl sp tp B columns column_list offset total_rows :
  steady (copy_loop fuel tbl sp tp B columns column_list offset total_rows).
Proof.
  revert offset total_rows. induction fuel as [|fuel IH]; intros offset total_rows.
  - intros env st. cbn. split; [reflexivity|]. exists []. now rewrite app_nil_r.
  - cbn [copy_loop].
    apply steady_bind; [apply steady_execute_query|]. intros _.
    apply steady_bind; [apply steady_fetchall|]. intros rows.
    destruct rows as [|r rows]; [apply steady_ret|].
    apply steady_bind; [apply steady_executemany|]. intros _.
    apply steady_bind; [apply steady_commit|]. intros _.
    apply steady_bind; [|intros _; apply IH].
    apply steady_modify. intros st. split; reflexivity.
Qed.

(** What [migrate_table] does once its connections and cursors are
    there opens and closes nothing. *)
Lemma steady_copy tbl sp tp B :
  steady
    (execute_query (GetDDL (database sp) (schema sp) tbl) ;;
     fetched <- fetchone ;;
     create_table_statement <- first_of_fetched fetched ;;
     create_table_statement <-
       str_replace create_table_statement (qualifier sp) (qualifier tp) ;;
     execute (DropTableIfExists (database tp) (schema tp) tbl) ;;
     execute (Statement create_table_statement) ;;
     commit ;;
     execute_query (SelectColumnNames (database sp) tbl (schema sp)) ;;
     fetched <- fetchall ;;
     columns <- first_column fetched ;;
     column_list <- join ", " columns ;;
     (fun env =>
        copy_loop (round_bound (catalog env) sp tbl) tbl
                  sp tp B columns column_list 0 0 env) ;;
     @set_success MigrationResult true)%py.
Proof.
  apply steady_bind; [apply steady_execute_query|]. intros _.
  apply steady_bind; [apply steady_fetchone|]. intros fetched.
  apply steady_bind.
  { destruct fetched as [[|c r]|]; first [apply steady_raise | apply steady_ret]. }
  intros c. apply steady_bind.
  { destruct c; first [apply steady_raise | apply steady_ret]. }
  intros ddl.
  apply steady_bind; [apply steady_execute|]. intros _.
  apply steady_bind; [apply steady_execute|]. intros _.
  apply steady_bind; [apply steady_commit|]. intros _.
  apply steady_bind; [apply steady_execute_query|]. intros _.
  apply steady_bind; [apply steady_fetchall|]. intros fetched'.
  apply steady_bind; [apply steady_first_column|]. intros columns.
  apply steady_bind.
  { unfold join. destruct (all_strings columns); [apply steady_ret | apply steady_raise]. }
  intros column_list.
  apply steady_bind.
  { intros env st. apply steady_copy_loop. }
  intros _. apply steady_modify. intros st. split; reflexivity.
Qed.

(** ** What [migrate_table] opens, and what it closes *)

(** The [try] block ends with the names bound that it opened, in the
    order of the code, and has closed nothing. *)
Lemma migrate_table_body_resources tbl sp tp B env o st1 :
  migrate_table_body tbl sp tp B env (entry tbl) = (o, st1) ->
  exists n : nat,
    let held := take n [source_conn; source_cursor; target_conn; target_cursor] in
    bound st1 = rev held /\ opened (trace st1) = held /\ closed (trace st1) = [].
Proof.
  intros Hrun. unfold migrate_table_body, entry in Hrun.
  rewrite bind_connect in Hrun; frame_simpl Hrun.
  destruct (faults env 0) as [msg|] eqn:F0.
  { injection Hrun as <- <-. exists 0%nat. cbn. auto. }
  rewrite bind_cursor in Hrun; frame_simpl Hrun.
  destruct (faults env 1) as [msg|] eqn:F1.
  { injection Hrun as <- <-. exists 1%nat. cbn. auto. }
  rewrite bind_connect in Hrun; frame_simpl Hrun.
  destruct (faults env 2) as [msg|] eqn:F2.
  { injection Hrun as <- <-. exists 2%nat. cbn. auto. }
  rewrite bind_cursor in Hrun; frame_simpl Hrun.
  destruct (faults env 3) as [msg|] eqn:F3.
  { injection Hrun as <- <-. exists 3%nat. cbn. auto. }
  match type of Hrun with
  | ?m env ?s = _ =>
      destruct (steady_copy tbl sp tp B env s) as (Hb & tr & Ht & Ho & Hc);
      change (m env s) with
        ((execute_query (GetDDL (database sp) (schema sp) tbl) ;;
          fetched <- fetchone ;;
          create_table_statement <- first_of_fetched fetched ;;
          create_table_statement <-
            str_replace create_table_statement (qualifier sp) (qualifier tp) ;;
          execute (DropTableIfExists (database tp) (schema tp) tbl) ;;
          execute (Statement create_table_statement) ;;
          commit ;;
          execute_query (SelectColumnNames (database sp) tbl (schema sp)) ;;
          fetched <- fetchall ;;
          columns <- first_column fetched ;;
          column_list <- join ", " columns ;;
          (fun env =>
             copy_loop (round_bound (catalog env) sp tbl) tbl
                       sp tp B columns column_list 0 0 env) ;;
          @set_success MigrationResult true)%py env s) in Hrun
  end.
  rewrite Hrun in Hb, Ht. cbn [snd] in Hb, Ht.
  exists 4%nat. cbv zeta. rewrite Hb, Ht.
  unfold opened, closed in *. rewrite !omap_app, Ho, Hc. cbn. auto.
Qed.

Lemma finally_closes (start : Z) env st :
  trace (snd ((close_cursor_if_bound Source ;;
               close_conn_if_bound Source ;;
               close_cursor_if_bound Target ;;
               close_conn_if_bound Target ;;
               now <- time ;;
               set_time_taken (Elapsed start now) ;;
               r <- get_result ;;
               @return_ MigrationResult Empty_set r)%py env st))
  = trace st ++ close_events (bound st).
Proof.
  unfold close_cursor_if_bound, close_conn_if_bound, set_time_taken, in_locals,
    close_events.
  rewrite bind_modify. cbn [cursor_of conn_of].
  destruct (existsb (local_eqb source_cursor) (bound st)) eqn:E1;
  rewrite bind_modify; frame_goal;
  destruct (existsb (local_eqb source_conn) (bound st)) eqn:E2;
  rewrite bind_modify; frame_goal;
  destruct (existsb (local_eqb target_cursor) (bound st)) eqn:E3;
  rewrite bind_modify; frame_goal;
  destruct (existsb (local_eqb target_conn) (bound st)) eqn:E4;
  rewrite bind_time, bind_modify; cbv [bind get_result return_];
  cbn [snd]; frame_goal;
  rewrite <- ?app_assoc, ?app_nil_r; reflexivity.
Qed.

Lemma migrate_table_trace tbl sp tp B env :
  exists o st1,
    migrate_table_body tbl sp tp B env (entry tbl) = (o, st1) /\
    trace (snd (run (migrate_table tbl sp tp B) env new_frame))
    = trace st1 ++ close_events (bound st1).
Proof.
  destruct (migrate_table_body tbl sp tp B env (entry tbl)) as [o st1] eqn:Hbody.
  exists o, st1. split; [reflexivity|].
  assert (Hgood : match o with Normal _ | Raise _ => True | _ => False end).
  { destruct (find_table (catalog env) (database sp) (schema sp) tbl) as [t|] eqn:Hfind.
    - destruct (migrate_table_body_found _ _ _ _ _ _ _ _ Hfind Hbody)
        as (k & _ & _ & _ & _ & Ho).
      destruct o; auto.
    - destruct (migrate_table_body_missing _ _ _ _ _ _ _ Hfind Hbody)
        as (_ & _ & _ & _ & _ & _ & _ & e & ->). exact I. }
  unfold run, migrate_table.
  rewrite bind_time, bind_modify. fold (entry tbl).
  unfold try_finally_return, try_except. rewrite Hbody.
  destruct o as [[]|e| |]; try contradiction.
  - pose proof (finally_closes (clock env (ticks new_frame)) env st1) as Hc.
    match type of Hc with trace (snd ?x) = _ => destruct x as [[v|e|r|] stF] end;
      cbn [snd] in Hc; try exact Hc. destruct v.
  - cbv [set_error modify].
    pose proof (finally_closes (clock env (ticks new_frame)) env
                  (set_result (with_error (Some (str e)) (result st1)) st1)) as Hc.
    match type of Hc with trace (snd ?x) = _ => destruct x as [[v|e'|r|] stF] end;
      cbn [snd] in Hc; try exact Hc. destruct v.
Qed.

(** X5. However [migrate_table] ends, every connection and cursor it opened
    is closed, once, and nothing else is; the closing comes after all the
    work, so nothing is used once it is closed. *)
Theorem migrate_table_closes_what_it_opened tbl sp tp B env :
  exists work closes,
    trace (snd (run (migrate_table tbl sp tp B) env new_frame)) = work ++ closes /\
    closed work = [] /\ opened closes = [] /\
    closed closes ≡ₚ opened work /\
    NoDup (opened work) /\
    Forall (fun e => exists x, released e = Some x) closes.
Proof.
  destruct (migrate_table_trace tbl sp tp B env) as (o & st1 & Hbody & Htrace).
  destruct (migrate_table_body_resources _ _ _ _ _ _ _ Hbody) as (n & Hb & Ho & Hc).
  cbv zeta in Hb, Ho.
  exists (trace st1), (close_events (bound st1)).
  split; [exact Htrace|]. split; [exact Hc|].
  rewrite Ho, Hb.
  destruct n as [|[|[|[|n]]]]; cbn; rewrite ?take_nil; cbn;
    (split; [reflexivity|]);
    (split; [solve_Permutation|]);
    (split; [|repeat constructor; eauto]).
  all: repeat (apply NoDup_cons_2;
               [rewrite ?elem_of_cons, elem_of_nil; intuition discriminate|]).
  all: apply NoDup_nil_2.
Qed.

(** ** [migrate_table] at the edges *)

Lemma sent_to_target_closes (b : list local) : sent_to_target (close_events b) = [].
Proof.
  unfold close_events.
  destruct (existsb (local_eqb source_cursor) b), (existsb (local_eqb source_conn) b),
    (existsb (local_eqb target_cursor) b), (existsb (local_eqb target_conn) b);
    reflexivity.
Qed.

Lemma migrate_table_body_missing_sent tbl sp tp B env o st1 :
  find_table (catalog env) (database sp) (schema sp) tbl = None ->
  migrate_table_body tbl sp tp B env (entry tbl) = (o, st1) ->
  sent_to_target (trace st1) = [].
Proof.
  intros Hfind Hrun.
  unfold migrate_table_body, entry in Hrun.
  rewrite bind_connect in Hrun; frame_simpl Hrun.
  destruct (faults env 0) as [msg|] eqn:F0; [injection Hrun as <- <-; reflexivity|].
  rewrite bind_cursor in Hrun; frame_simpl Hrun.
  destruct (faults env 1) as [msg|] eqn:F1; [injection Hrun as <- <-; reflexivity|].
  rewrite bind_connect in Hrun; frame_simpl Hrun.
  destruct (faults env 2) as [msg|] eqn:F2; [injection Hrun as <- <-; reflexivity|].
  rewrite bind_cursor in Hrun; frame_simpl Hrun.
  destruct (faults env 3) as [msg|] eqn:F3; [injection Hrun as <- <-; reflexivity|].
  rewrite bind_execute_query in Hrun; frame_simpl Hrun.
  destruct (faults env 4) as [msg|] eqn:F4; [injection Hrun as <- <-; reflexivity|].
  cbn [answer] in Hrun. rewrite Hfind in Hrun. injection Hrun as <- <-. reflexivity.
Qed.

(** X6. For a table the source does not have, the call returns a failure
    with no rows, and it fails before anything is sent to the target: the
    table of that name in the target, if there is one, is not dropped. *)
Theorem migrate_table_missing_source_spares_target tbl sp tp B env r st :
  find_table (catalog env) (database sp) (schema sp) tbl = None ->
  run (migrate_table tbl sp tp B) env new_frame = (Returned r, st) ->
  success r = false /\ (exists msg, error r = Some msg) /\ rows_migrated r = 0 /\
  sent_to_target (trace st) = [] /\ committed st = [].
Proof.
  intros Hfind Hrun.
  destruct (migrate_table_missing tbl sp tp B env Hfind)
    as (st' & e & st1 & Hrun' & Hbody & Hr & Hc & _).
  rewrite Hrun in Hrun'. injection Hrun' as -> ->.
  rewrite Hr. cbn [success error rows_migrated with_time_taken with_error initial_result].
  split; [reflexivity|]. split; [eauto|]. split; [reflexivity|].
  split; [|exact Hc].
  destruct (migrate_table_trace tbl sp tp B env) as (o & st1' & Hbody' & Htrace).
  rewrite Hrun in Htrace. cbn [snd] in Htrace. rewrite Htrace.
  unfold sent_to_target. rewrite omap_app.
  fold (sent_to_target (trace st1')). fold (sent_to_target (close_events (bound st1'))).
  rewrite (migrate_table_body_missing_sent _ _ _ _ _ _ _ Hfind Hbody').
  apply sent_to_target_closes.
Qed.

Lemma migrate_table_missing_source_spares_target_witness :
  let x := Scenario.migrate Scenario.quiet "INVOICES" 2 in
  (find_table (catalog Scenario.quiet) (database Scenario.source_profile)
     (schema Scenario.source_profile) "INVOICES" = None /\
   x = (Returned (Scenario.returned x), snd x)) /\
  success (Scenario.returned x) = false /\
  (exists msg, error (Scenario.returned x) = Some msg) /\
  rows_migrated (Scenario.returned x) = 0 /\
  sent_to_target (trace (snd x)) = [] /\ committed (snd x) = [].
Proof.
  cbv zeta. split; [split; vm_compute; reflexivity|].
  apply (migrate_table_missing_source_spares_target
           "INVOICES" Scenario.source_profile Scenario.target_profile 2 Scenario.quiet
           (Scenario.returned (Scenario.migrate Scenario.quiet "INVOICES" 2))
           (snd (Scenario.migrate Scenario.quiet "INVOICES" 2)));
    vm_compute; reflexivity.
Defined.

(** X7. When the source has the table, the connector fails on no call and
    the batch size is not negative, the call succeeds; with a positive
    batch size the target table then holds the rows of the source. *)
Theorem migrate_table_succeeds_without_faults tbl sp tp B env t r st :
  find_table (catalog env) (database sp) (schema sp) tbl = Some t ->
  (forall j, faults env j = None) ->
  0 <= B ->
  run (migrate_table tbl sp tp B) env new_frame = (Returned r, st) ->
  success r = true /\ error r = None /\
  (0 < B ->
   rows_migrated r = Z.of_nat (length (t_rows t)) /\
   forall earlier,
     table_rows (database tp) (schema tp) tbl (earlier ++ committed st) = t_rows t).
Proof.
  intros Hfind Hquiet HB Hrun.
  destruct (migrate_table_found tbl sp tp B env t Hfind)
    as (k & st' & o & st1 & Hrun' & _ & _ & _ & Hrows & _ & _ & _ & Ho).
  rewrite Hrun in Hrun'. injection Hrun' as -> ->.
  destruct o as [[]|e| |]; try contradiction.
  - destruct Ho as (Hs & He & _ & Hc & _ & Hall).
    split; [exact Hs|]. split; [exact He|].
    intros Hpos. destruct (Hall Hpos) as (Hk & _). rewrite Hk in Hrows, Hc.
    rewrite concat_chunks in Hrows by lia. split; [exact Hrows|].
    intros earlier. rewrite Hc, table_rows_copy. apply concat_chunks. lia.
  - destruct Ho as (_ & _ & [(j & Hj)|Hneg]); [|lia].
    rewrite Hquiet in Hj. discriminate.
Qed.

Lemma migrate_table_succeeds_without_faults_witness :
  let x := Scenario.migrate Scenario.quiet "ORDERS" 2 in
  (find_table (catalog Scenario.quiet) (database Scenario.source_profile)
     (schema Scenario.source_profile) "ORDERS" = Some Scenario.orders /\
   (forall j, faults Scenario.quiet j = None) /\ 0 <= 2 /\
   x = (Returned (Scenario.returned x), snd x)) /\
  success (Scenario.returned x) = true /\ error (Scenario.returned x) = None /\
  (0 < 2 ->
   rows_migrated (Scenario.returned x) = Z.of_nat (length (t_rows Scenario.orders)) /\
   forall earlier,
     table_rows (database Scenario.target_profile) (schema Scenario.target_profile)
       "ORDERS" (earlier ++ committed (snd x)) = t_rows Scenario.orders).
Proof.
  cbv zeta.
  split; [split; [vm_compute; reflexivity
                 |split; [reflexivity | split; [lia | vm_compute; reflexivity]]]|].
  apply (migrate_table_succeeds_without_faults
           "ORDERS" Scenario.source_profile Scenario.target_profile 2 Scenario.quiet
           Scenario.orders
           (Scenario.returned (Scenario.migrate Scenario.quiet "ORDERS" 2))
           (snd (Scenario.migrate Scenario.quiet "ORDERS" 2)));
    [vm_compute; reflexivity | reflexivity | lia | vm_compute; reflexivity].
Defined.

Lemma chunks_upto_zero {A} (fuel : nat) (l : list A) (c : list A) :
  c ∈ chunks_upto fuel 0 l -> c = [].
Proof.
  revert l. induction fuel as [|fuel IH]; intros l Hin; [inversion Hin|].
  destruct l as [|x l]; [inversion Hin|].
  cbn [chunks_upto] in Hin. apply elem_of_cons in Hin as [->|Hin]; [reflexivity|].
  eapply IH. exact Hin.
Qed.

Lemma concat_empty {A} (ls : list (list A)) :
  (forall c, c ∈ ls -> c = []) -> concat ls = [].
Proof.
  induction ls as [|c ls IH]; intros H; [reflexivity|].
  cbn [concat]. rewrite (H c) by apply list_elem_of_here.
  apply IH. intros c' Hc'. apply H. now apply list_elem_of_further.
Qed.

(** X8. With a batch size of zero the first extract returns no rows and the
    loop stops at once: the call reports success with no rows, and the
    target table is left freshly created and empty, whatever the source
    table and the target table held. *)
Theorem migrate_table_batch_zero_copies_nothing tbl sp tp env t r st :
  find_table (catalog env) (database sp) (schema sp) tbl = Some t ->
  (forall j, faults env j = None) ->
  run (migrate_table tbl sp tp 0) env new_frame = (Returned r, st) ->
  success r = true /\ error r = None /\ rows_migrated r = 0 /\
  forall earlier,
    table_rows (database tp) (schema tp) tbl (earlier ++ committed st) = [].
Proof.
  intros Hfind Hquiet Hrun.
  destruct (migrate_table_found tbl sp tp 0 env t Hfind)
    as (k & st' & o & st1 & Hrun' & _ & _ & _ & Hrows & _ & _ & _ & Ho).
  rewrite Hrun in Hrun'. injection Hrun' as -> ->.
  assert (Hnone : concat (take k (chunks (Z.to_nat 0) (t_rows t))) = []).
  { apply concat_empty. intros c Hc. apply subseteq_take in Hc.
    eapply chunks_upto_zero. exact Hc. }
  destruct o as [[]|e| |]; try contradiction.
  - destruct Ho as (Hs & He & _ & Hc & _).
    split; [exact Hs|]. split; [exact He|].
    rewrite Hnone in Hrows. split; [exact Hrows|].
    intros earlier. rewrite Hc, table_rows_copy. exact Hnone.
  - destruct Ho as (_ & _ & [(j & Hj)|Hneg]); [|lia].
    rewrite Hquiet in Hj. discriminate.
Qed.

Lemma migrate_table_batch_zero_copies_nothing_witness :
  let x := Scenario.migrate Scenario.quiet "ORDERS" 0 in
  (find_table (catalog Scenario.quiet) (database Scenario.source_profile)
     (schema Scenario.source_profile) "ORDERS" = Some Scenario.orders /\
   (forall j, faults Scenario.quiet j = None) /\
   x = (Returned (Scenario.returned x), snd x)) /\
  length (t_rows Scenario.orders) = 5%nat /\
  success (Scenario.returned x) = true /\ error (Scenario.returned x) = None /\
  rows_migrated (Scenario.returned x) = 0 /\
  forall earlier,
    table_rows (database Scenario.target_profile) (schema Scenario.target_profile)
      "ORDERS" (earlier ++ committed (snd x)) = [].
Proof.
  cbv zeta.
  split; [split; [vm_compute; reflexivity
                 |split; [reflexivity | vm_compute; reflexivity]]|].
  split; [reflexivity|].
  apply (migrate_table_batch_zero_copies_nothing
           "ORDERS" Scenario.source_profile Scenario.target_profile Scenario.quiet
           Scenario.orders
           (Scenario.returned (Scenario.migrate Scenario.quiet "ORDERS" 0))
           (snd (Scenario.migrate Scenario.quiet "ORDERS" 0)));
    [vm_compute; reflexivity | reflexivity | vm_compute; reflexivity].
Defined.

(** ** The pool at work *)

Lemma submit_within (max_workers : Z) (tbl : string) (p : Pool) :
  within max_workers p -> within max_workers (snd (submit max_workers tbl p)).
Proof.
  intros [Hle Hq]. unfold submit, within.
  destruct (Z.ltb_spec (Z.of_nat (length (running p))) max_workers) as [Hlt|Hge];
    cbn [snd running queue].
  - rewrite length_app. cbn [length]. split; [lia|].
    intros Hne. specialize (Hq Hne). lia.
  - split; [exact Hle|]. intros _. lia.
Qed.

Lemma submit_all_within (max_workers : Z) (tables : list string) (p : Pool) :
  within max_workers p -> within max_workers (snd (submit_all max_workers tables p)).
Proof.
  revert p. induction tables as [|tbl tables IH]; intros p Hp; [exact Hp|].
  cbn [submit_all].
  pose proof (submit_within max_workers tbl p Hp) as H1.
  destruct (submit max_workers tbl p) as [future p1]. cbn [snd] in H1.
  specialize (IH p1 H1).
  destruct (submit_all max_workers tables p1) as [ftt p2]. exact IH.
Qed.

Lemma complete_one_within w sp tp B (max_workers : Z) (choice : nat) (p : Pool) :
  within max_workers p -> within max_workers (complete_one w sp tp B choice p).
Proof.
  intros [Hle Hq]. unfold complete_one.
  destruct (running p !! (choice mod length (running p))%nat) as [item|] eqn:Hi;
    [|split; assumption].
  destruct (run_item w sp tp B item) as [c st]. unfold within. cbn [running queue].
  pose proof (lookup_lt_Some _ _ _ Hi) as Hlt.
  rewrite length_app, length_delete by eauto.
  destruct (queue p) as [|q qs]; cbn [take tail length].
  - split; [lia|]. intros Hne. congruence.
  - rewrite take_0. cbn [length].
    assert (Z.of_nat (length (running p)) = max_workers) by (apply Hq; discriminate).
    split; [lia|]. intros _. lia.
Qed.

Lemma drain_within w sp tp B (max_workers : Z) (n k : nat) (p : Pool) :
  within max_workers p -> within max_workers (drain w sp tp B n k p).
Proof.
  revert k p. induction n as [|n IH]; intros k p Hp; [exact Hp|].
  cbn [drain]. apply IH. now apply complete_one_within.
Qed.

(** X9. At every moment of a run, after the submissions and any number of
    completions, no more tasks are running than [max_workers], and a task
    waits only when [max_workers] tasks are running. *)
Theorem pool_keeps_within_max_workers w sp tp B (max_workers : Z)
    (tables : list string) (n : nat) :
  0 < max_workers ->
  within max_workers
    (drain w sp tp B n 0 (snd (submit_all max_workers tables new_pool))).
Proof.
  intros Hmw. apply drain_within, submit_all_within.
  split; [cbn; lia|]. intros H. now contradiction H.
Qed.

Lemma pool_keeps_within_max_workers_witness :
  0 < 1 /\
  within 1
    (drain Scenario.world Scenario.source_profile Scenario.target_profile 2 1 0
       (snd (submit_all 1 ["ORDERS"; "CUSTOMERS"]%string new_pool))).
Proof.
  split; [lia|].
  apply (pool_keeps_within_max_workers
           Scenario.world Scenario.source_profile Scenario.target_profile 2 1
           ["ORDERS"; "CUSTOMERS"]%string 1).
  lia.
Defined.

(** ** The pool when the orchestrator returns *)

Lemma numbered_futures (tables : list string) :
  List.map fst (numbered tables) = seq 0 (length tables).
Proof.
  unfold numbered. change (List.map ?f ?l) with (f <$> l). rewrite fmap_imap.
  rewrite (imap_ext _ (fun j _ => j)) by (intros; reflexivity).
  rewrite (imap_seq_0 tables (fun i => i)). apply list_fmap_id.
Qed.

Lemma numbered_lookup (tables : list string) (item : work_item) :
  item ∈ numbered tables <-> tables !! fst item = Some (snd item).
Proof.
  unfold numbered. rewrite elem_of_lookup_imap. split.
  - intros (i & tbl & -> & Hi). exact Hi.
  - intros Hi. exists (fst item), (snd item). split; [now destruct item | exact Hi].
Qed.

(** The books of the pool: every future is either still to finish or in
    [finished], and the target holds what the finished tasks committed,
    in the order they finished. *)
Lemma complete_one_ledger w sp tp B (tables : list string) (choice : nat) (p : Pool) :
  tracks w sp tp B (numbered tables) p ->
  List.map fst (unfinished p) ++ finished p ≡ₚ seq 0 (length tables) ->
  target p = concat (List.map (log_at w sp tp B tables) (finished p)) ->
  length (futures p) = length tables ->
  let p' := complete_one w sp tp B choice p in
  List.map fst (unfinished p') ++ finished p' ≡ₚ seq 0 (length tables) /\
  target p' = concat (List.map (log_at w sp tp B tables) (finished p')) /\
  length (futures p') = length tables.
Proof.
  intros (Hst & Hsub & _) Hperm Htarget Hlen. cbv zeta.
  destruct (decide (running p = [])) as [Hrun|Hrun].
  { rewrite complete_one_idle by exact Hrun. auto. }
  destruct (complete_one_busy w sp tp B choice p Hrun)
    as (item & Hin & Hp & Hfut & Hfin & Htg & _).
  assert (Hitem : tables !! fst item = Some (snd item)).
  { apply numbered_lookup, Hsub. unfold unfinished. apply elem_of_app. now left. }
  split; [|split].
  - rewrite Hfin, <- Hperm, Hp. cbn [List.map].
    rewrite app_assoc, <- Permutation_cons_append. reflexivity.
  - rewrite Htg, Hfin, Htarget, map_app, concat_app. cbn [List.map concat].
    rewrite app_nil_r. f_equal. unfold log_at. rewrite Hitem. now destruct item.
  - rewrite Hfut, length_insert. exact Hlen.
Qed.

Lemma drain_ledger w sp tp B (tables : list string) (n : nat) :
  forall k p,
    tracks w sp tp B (numbered tables) p ->
    List.map fst (unfinished p) ++ finished p ≡ₚ seq 0 (length tables) ->
    target p = concat (List.map (log_at w sp tp B tables) (finished p)) ->
    length (futures p) = length tables ->
    let p' := drain w sp tp B n k p in
    List.map fst (unfinished p') ++ finished p' ≡ₚ seq 0 (length tables) /\
    target p' = concat (List.map (log_at w sp tp B tables) (finished p')) /\
    length (futures p') = length tables.
Proof.
  induction n as [|n IH]; intros k p Ht Hperm Htarget Hlen; [cbn; auto|].
  cbn [drain].
  destruct (complete_one_ledger w sp tp B tables (completes w k) p Ht Hperm Htarget Hlen)
    as (Hperm' & Htarget' & Hlen').
  destruct (complete_one_tracks w sp tp B (numbered tables) (completes w k) p
              (numbered_coherent tables) Ht) as [Ht' _].
  apply IH; assumption.
Qed.

(** The pool the orchestrator leaves. *)
Lemma migrate_all_tables_pool w sp tp B max_workers (tables : list string) :
  fst (run (get_tables sp) (listing_env w) new_frame) = Returned tables ->
  0 < max_workers ->
  let p := snd (migrate_all_tables w sp tp B max_workers) in
  unfinished p = [] /\
  finished p ≡ₚ seq 0 (length tables) /\
  target p = concat (List.map (log_at w sp tp B tables) (finished p)) /\
  length (futures p) = length tables /\
  forall i tbl, tables !! i = Some tbl ->
    futures p !! i = Some (Some (Returned (task_result w sp tp B i tbl))).
Proof.
  intros Hlist Hmw. unfold migrate_all_tables.
  destruct (run (get_tables sp) (listing_env w) new_frame) as [c st0].
  cbn [fst] in Hlist. subst c.
  destruct (Z.leb_spec max_workers 0) as [|_]; [lia|].
  destruct (submit_all_spec max_workers tables new_pool Hmw)
    as (Hf & Hl & Hu & Hs & Hfin & Htg); [intros _; reflexivity|].
  destruct (submit_all max_workers tables new_pool) as [ftt p]. cbn [fst snd] in *.
  change (imap _ tables) with (numbered tables) in Hf. subst ftt.
  assert (Ht : tracks w sp tp B (numbered tables) p).
  { split; [exact Hs|]. split.
    { intros y Hy. rewrite Hu in Hy. exact Hy. }
    split.
    { intros y Hy. rewrite Hl. apply numbered_lookup, lookup_lt_Some in Hy. exact Hy. }
    intros y Hy. left. rewrite Hu. exact Hy. }
  assert (Hn : (length (unfinished p) <= length tables)%nat).
  { rewrite Hu. unfold numbered. cbn. rewrite length_imap. lia. }
  destruct (drain_tracks w sp tp B (numbered tables) (length tables)
              (numbered_coherent tables) 0%nat p Ht Hn)
    as ((_ & _ & _ & Hres) & Hnone).
  destruct (drain_ledger w sp tp B tables (length tables) 0%nat p Ht)
    as (Hperm & Htarget & Hlen).
  { rewrite Hu, Hfin. cbn [app new_pool unfinished running queue finished].
    rewrite app_nil_r, numbered_futures. reflexivity. }
  { rewrite Htg, Hfin. reflexivity. }
  { rewrite Hl. reflexivity. }
  cbv zeta. cbn [snd].
  split; [exact Hnone|].
  split; [rewrite Hnone in Hperm; exact Hperm|].
  split; [exact Htarget|]. split; [exact Hlen|].
  intros i tbl Hi.
  destruct (Hres (i, tbl)) as [Hu'|Hf'].
  - apply numbered_lookup. exact Hi.
  - rewrite Hnone in Hu'. inversion Hu'.
  - cbn [fst] in Hf'. rewrite Hf', task_returns. reflexivity.
Qed.

(** X10. When the orchestrator returns, every task has finished, and finished
    once: nothing is running or waiting, every future holds the result
    its task returned, and each future is once in the order of
    completion. *)
Theorem migrate_all_tables_waits_for_every_task w sp tp B max_workers
    (tables : list string) :
  fst (run (get_tables sp) (listing_env w) new_frame) = Returned tables ->
  0 < max_workers ->
  let p := snd (migrate_all_tables w sp tp B max_workers) in
  running p = [] /\ queue p = [] /\
  finished p ≡ₚ seq 0 (length tables) /\
  length (futures p) = length tables /\
  forall i tbl, tables !! i = Some tbl ->
    exists r, futures p !! i = Some (Some (Returned r)) /\ table r = tbl.
Proof.
  intros Hlist Hmw.
  destruct (migrate_all_tables_pool w sp tp B max_workers tables Hlist Hmw)
    as (Hnone & Hperm & _ & Hlen & Hfut).
  cbv zeta. apply app_eq_nil in Hnone as [Hr Hq].
  split; [exact Hr|]. split; [exact Hq|]. split; [exact Hperm|]. split; [exact Hlen|].
  intros i tbl Hi. exists (task_result w sp tp B i tbl).
  split; [apply Hfut, Hi | apply task_result_table].
Qed.

Lemma migrate_all_tables_waits_for_every_task_witness :
  let p := snd (migrate_all_tables Scenario.world Scenario.source_profile
                  Scenario.target_profile 2 1) in
  (fst (run (get_tables Scenario.source_profile) (listing_env Scenario.world) new_frame)
   = Returned ["ORDERS"; "CUSTOMERS"]%string /\ 0 < 1) /\
  running p = [] /\ queue p = [] /\
  finished p ≡ₚ seq 0 (length ["ORDERS"; "CUSTOMERS"]%string) /\
  length (futures p) = length ["ORDERS"; "CUSTOMERS"]%string /\
  forall i tbl, ["ORDERS"; "CUSTOMERS"]%string !! i = Some tbl ->
    exists r, futures p !! i = Some (Some (Returned r)) /\ table r = tbl.
Proof.
  cbv zeta. split; [split; [vm_compute; reflexivity | lia]|].
  apply (migrate_all_tables_waits_for_every_task
           Scenario.world Scenario.source_profile Scenario.target_profile 2 1
           ["ORDERS"; "CUSTOMERS"]%string);
    [vm_compute; reflexivity | lia].
Defined.

(** ** The target account when the orchestrator returns *)

Lemma apply_stmt_foreign (db sch tbl : string) (rows : list row) (s : stmt) :
  touches db sch tbl s = false -> apply_stmt db sch tbl rows s = rows.
Proof. destruct s; cbn [touches apply_stmt]; intros H; rewrite ?H; reflexivity. Qed.

Lemma table_rows_foreign (db sch tbl : string) (log other : list stmt) :
  (forall s, s ∈ other -> touches db sch tbl s = false) ->
  table_rows db sch tbl (log ++ other) = table_rows db sch tbl log.
Proof.
  unfold table_rows. rewrite fold_left_app.
  generalize (fold_left (apply_stmt db sch tbl) log []).
  induction other as [|s other IH]; intros rows H; [reflexivity|].
  cbn [fold_left]. rewrite apply_stmt_foreign by (apply H, list_elem_of_here).
  apply IH. intros s' Hs'. apply H. now apply list_elem_of_further.
Qed.

Lemma touches_same (db sch tbl d c t : string) :
  (String.eqb d db && String.eqb c sch && String.eqb t tbl) = true -> t = tbl.
Proof.
  intros H. apply andb_true_iff in H as [_ H]. now apply String.eqb_eq in H.
Qed.

(** The drops and inserts a call commits are for its own table. *)
Lemma migrate_table_log_touches tbl sp tp B env r st (s : stmt) (tbl' : string) :
  run (migrate_table tbl sp tp B) env new_frame = (Returned r, st) ->
  s ∈ committed st ->
  touches (database tp) (schema tp) tbl' s = true -> tbl = tbl'.
Proof.
  intros Hrun Hin Htouch.
  destruct (find_table (catalog env) (database sp) (schema sp) tbl) as [t|] eqn:Hfind.
  - destruct (migrate_table_found tbl sp tp B env t Hfind)
      as (k & st' & o & st1 & Hrun' & _ & _ & _ & _ & _ & Hc & _).
    rewrite Hrun in Hrun'. injection Hrun' as -> ->.
    destruct Hc as [ [Hc _] | Hc]; rewrite Hc in Hin; [inversion Hin|].
    apply elem_of_cons in Hin as [->|Hin]; [eapply touches_same; exact Htouch|].
    apply elem_of_cons in Hin as [->|Hin]; [discriminate|].
    apply list_elem_of_fmap in Hin as (b & -> & _).
    eapply touches_same. exact Htouch.
  - destruct (migrate_table_missing tbl sp tp B env Hfind)
      as (st' & e & st1 & Hrun' & _ & _ & Hc & _).
    rewrite Hrun in Hrun'. injection Hrun' as -> ->.
    rewrite Hc in Hin. inversion Hin.
Qed.

(** A call that reports success has put the rows of the source table in
    the target table. *)
Lemma migrate_table_success_log tbl sp tp B env r st :
  run (migrate_table tbl sp tp B) env new_frame = (Returned r, st) ->
  success r = true -> 0 < B ->
  forall earlier,
    table_rows (database tp) (schema tp) tbl (earlier ++ committed st)
    = source_rows (catalog env) sp tbl.
Proof.
  intros Hrun Hok HB earlier. unfold source_rows.
  destruct (find_table (catalog env) (database sp) (schema sp) tbl) as [t|] eqn:Hfind.
  - destruct (migrate_table_found tbl sp tp B env t Hfind)
      as (k & st' & o & st1 & Hrun' & _ & _ & _ & _ & _ & _ & _ & Ho).
    rewrite Hrun in Hrun'. injection Hrun' as -> ->.
    destruct o as [[]|e| |]; try contradiction.
    + destruct Ho as (_ & _ & _ & Hc & _ & Hall).
      destruct (Hall HB) as (Hk & _). rewrite Hk in Hc.
      rewrite Hc, table_rows_copy. apply concat_chunks. lia.
    + destruct Ho as (Hs & _). congruence.
  - destruct (migrate_table_missing tbl sp tp B env Hfind)
      as (st' & e & st1 & Hrun' & _ & Hr & _).
    rewrite Hrun in Hrun'. injection Hrun' as -> ->.
    rewrite Hr in Hok. discriminate.
Qed.

(** X11. After a run of the orchestrator over tables of different names,
    every table whose result reports success holds in the target exactly
    the rows it has in the source, whatever the order in which the tasks
    finished and whatever the target held before. *)
Theorem migrate_all_tables_fills_the_target w sp tp B max_workers
    (tables : list string) (results : list MigrationResult)
    (i : nat) (r : MigrationResult) (earlier : list stmt) :
  fst (run (get_tables sp) (listing_env w) new_frame) = Returned tables ->
  NoDup tables ->
  0 < max_workers ->
  0 < B ->
  fst (migrate_all_tables w sp tp B max_workers) = Returned results ->
  results !! i = Some r ->
  success r = true ->
  table_rows (database tp) (schema tp) (table r)
    (earlier ++ target (snd (migrate_all_tables w sp tp B max_workers)))
  = source_rows (source_account w) sp (table r).
Proof.
  intros Hlist Hnd Hmw HB Hres Hi Hok.
  rewrite (migrate_all_tables_spec w sp tp B max_workers tables Hlist Hmw) in Hres.
  injection Hres as <-.
  rewrite list_lookup_imap in Hi.
  destruct (tables !! i) as [tbl|] eqn:Htbl; [|discriminate]. injection Hi as <-.
  rewrite task_result_table.
  destruct (migrate_all_tables_pool w sp tp B max_workers tables Hlist Hmw)
    as (_ & Hperm & Htarget & _).
  cbv zeta in Hperm, Htarget. rewrite Htarget.
  assert (Hin : i ∈ finished (snd (migrate_all_tables w sp tp B max_workers))).
  { rewrite Hperm. apply elem_of_seq. apply lookup_lt_Some in Htbl. lia. }
  assert (Hndf : NoDup (finished (snd (migrate_all_tables w sp tp B max_workers))))
    by (rewrite Hperm; apply NoDup_seq).
  apply list_elem_of_split in Hin as (l1 & l2 & Hsplit).
  rewrite Hsplit in Hndf |- *.
  apply NoDup_app in Hndf as (_ & _ & Hnd2). apply NoDup_cons in Hnd2 as [Hnotin _].
  rewrite map_app, concat_app. cbn [List.map concat].
  rewrite !app_assoc. rewrite table_rows_foreign.
  - rewrite <- app_assoc. unfold log_at at 2. rewrite Htbl.
    destruct (task_result_run w sp tp B i tbl) as [st Hst].
    unfold run_item. cbn [fst snd]. rewrite Hst. cbn [snd].
    rewrite app_assoc.
    apply (migrate_table_success_log tbl sp tp B (task_env w i) _ st Hst Hok HB).
  - intros s Hs. apply list_elem_of_In, in_concat in Hs as (log & Hlog & Hs).
    apply in_map_iff in Hlog as (j & <- & Hj).
    apply list_elem_of_In in Hs. apply list_elem_of_In in Hj.
    unfold log_at in Hs.
    destruct (tables !! j) as [tbl'|] eqn:Hj'; [|inversion Hs].
    destruct (touches (database tp) (schema tp) tbl s) eqn:Htouch; [|reflexivity].
    exfalso.
    destruct (task_result_run w sp tp B j tbl') as [st Hst].
    unfold run_item in Hs. cbn [fst snd] in Hs. rewrite Hst in Hs. cbn [snd] in Hs.
    pose proof (migrate_table_log_touches _ _ _ _ _ _ _ _ _ Hst Hs Htouch) as ->.
    assert (j = i) by (eapply NoDup_lookup; eassumption).
    subst j. contradiction.
Qed.

Lemma migrate_all_tables_fills_the_target_witness :
  let w := calm_world in
  let x := migrate_all_tables w Scenario.source_profile Scenario.target_profile 2 2 in
  let r := {| table := "ORDERS"; success := true; rows_migrated := 5;
              error := None; time_taken := Elapsed 0 1 |} in
  (fst (run (get_tables Scenario.source_profile) (listing_env w) new_frame)
   = Returned ["ORDERS"; "CUSTOMERS"]%string /\
   NoDup ["ORDERS"; "CUSTOMERS"]%string /\ 0 < 2 /\ 0 < 2 /\
   fst x = Returned (results_of x) /\
   results_of x !! 0%nat = Some r /\ success r = true) /\
  finished (snd x) = [1; 0]%nat /\
  table_rows (database Scenario.target_profile) (schema Scenario.target_profile)
    (table r) ([] ++ target (snd x))
  = source_rows (source_account w) Scenario.source_profile (table r).
Proof.
  cbv zeta.
  assert (Hnd : NoDup ["ORDERS"; "CUSTOMERS"]%string).
  { apply NoDup_cons_2; [|apply NoDup_singleton].
    intros H. apply list_elem_of_singleton in H. discriminate. }
  split.
  { split; [vm_compute; reflexivity|]. split; [exact Hnd|].
    split; [lia|]. split; [lia|].
    split; [vm_compute; reflexivity|]. split; [vm_compute; reflexivity | reflexivity]. }
  split; [vm_compute; reflexivity|].
  apply (migrate_all_tables_fills_the_target
           calm_world Scenario.source_profile Scenario.target_profile 2 2
           ["ORDERS"; "CUSTOMERS"]%string
           (results_of (migrate_all_tables calm_world Scenario.source_profile
                          Scenario.target_profile 2 2)) 0%nat);
    [vm_compute; reflexivity | exact Hnd | lia | lia
    | vm_compute; reflexivity | vm_compute; reflexivity | reflexivity].
Defined.

(** X12. When the listing of the tables fails, the orchestrator raises the
    error of the listing; no task is submitted and nothing reaches the
    target. *)
Theorem migrate_all_tables_stops_when_listing_fails w sp tp B max_workers
    (k : nat) (m : string) :
  (k < 4)%nat -> listing_faults w k = Some m ->
  exists msg j,
    (j < 4)%nat /\ listing_faults w j = Some msg /\
    migrate_all_tables w sp tp B max_workers
    = (Raised (Exception ("Error fetching tables: " ++ msg)%string), new_pool).
Proof.
  intros Hk Hm.
  destruct (get_tables_spec sp (listing_env w))
    as [[_ Hquiet]|(msg & j & Hj & Hf & Hraise)].
  - cbn in Hquiet. rewrite (Hquiet k Hk) in Hm. discriminate.
  - exists msg, j. split; [exact Hj|]. split; [exact Hf|].
    unfold migrate_all_tables.
    destruct (run (get_tables sp) (listing_env w) new_frame) as [c st0].
    cbn [fst] in Hraise. subst c. reflexivity.
Qed.

Lemma migrate_all_tables_stops_when_listing_fails_witness :
  let w := unlisted_world in
  ((2 < 4)%nat /\ listing_faults w 2 = Some "timeout"%string) /\
  exists msg j,
    (j < 4)%nat /\ listing_faults w j = Some msg /\
    migrate_all_tables w Scenario.source_profile Scenario.target_profile 2 4
    = (Raised (Exception ("Error fetching tables: " ++ msg)%string), new_pool).
Proof.
  cbv zeta. split; [split; [lia | reflexivity]|].
  apply (migrate_all_tables_stops_when_listing_fails
           unlisted_world Scenario.source_profile Scenario.target_profile 2 4
           2%nat "timeout"%string);
    [lia | reflexivity].
Defined.

(** X13. The number of workers changes how the tasks overlap and nothing of
    what the orchestrator returns: with any two positive numbers of
    workers the results are the same, in the same order. *)
Theorem migrate_all_tables_same_for_any_workers w sp tp B (workers workers' : Z) :
  0 < workers -> 0 < workers' ->
  fst (migrate_all_tables w sp tp B workers)
  = fst (migrate_all_tables w sp tp B workers').
Proof.
  intros H H'.
  destruct (fst (run (get_tables sp) (listing_env w) new_frame)) as [tables|e|] eqn:Hlist.
  - rewrite (migrate_all_tables_spec w sp tp B workers tables Hlist H).
    rewrite (migrate_all_tables_spec w sp tp B workers' tables Hlist H').
    reflexivity.
  - unfold migrate_all_tables.
    destruct (run (get_tables sp) (listing_env w) new_frame) as [[tables'|e'|] st0];
      cbn [fst] in Hlist; try discriminate. reflexivity.
  - unfold migrate_all_tables.
    destruct (run (get_tables sp) (listing_env w) new_frame) as [[tables'|e'|] st0];
      cbn [fst] in Hlist; try discriminate. reflexivity.
Qed.

Lemma migrate_all_tables_same_for_any_workers_witness :
  (0 < 1 /\ 0 < 8) /\
  fst (migrate_all_tables Scenario.world Scenario.source_profile
         Scenario.target_profile 2 1)
  = fst (migrate_all_tables Scenario.world Scenario.source_profile
           Scenario.target_profile 2 8).
Proof.
  split; [lia|].
  apply (migrate_all_tables_same_for_any_workers
           Scenario.world Scenario.source_profile Scenario.target_profile 2 1 8); lia.
Defined.

(** ** The application: the loop over the selected tables, and its summary *)

Lemma migrate_selected_spec w sp tp B (selected : list string) :
  forall (i : nat) (results : list MigrationResult),
    migrate_selected w sp tp B i selected results
    = Returned (results ++ imap (fun j tbl => task_result w sp tp B (i + j) tbl) selected).
Proof.
  induction selected as [|tbl selected IH]; intros i results.
  - cbn. now rewrite app_nil_r.
  - cbn [migrate_selected]. rewrite imap_cons, Nat.add_0_r.
    destruct (task_result_run w sp tp B i tbl) as [st Hst]. rewrite Hst. cbn [fst].
    rewrite IH, <- app_assoc. cbn [app]. do 3 f_equal.
    apply imap_ext. intros j x _. cbn. f_equal. lia.
Qed.

(** X14. The loop of the application goes through all the tables selected,
    whatever fails on the way: it has one result per selected table, in
    the order of the selection, each the result of the call for that
    table. *)
Theorem migrate_selected_gives_one_result_each w sp tp B (selected : list string) :
  exists results,
    migrate_selected w sp tp B 0 selected [] = Returned results /\
    length results = length selected /\
    result_tables results = selected /\
    forall i tbl, selected !! i = Some tbl ->
      exists r st,
        results !! i = Some r /\
        run (migrate_table tbl sp tp B) (task_env w i) new_frame = (Returned r, st).
Proof.
  exists (imap (task_result w sp tp B) selected).
  split; [rewrite migrate_selected_spec; reflexivity|].
  split; [apply length_imap|]. split; [apply result_tables_tasks|].
  intros i tbl Hi. destruct (task_result_run w sp tp B i tbl) as [st Hst].
  exists (task_result w sp tp B i tbl), st.
  split; [rewrite list_lookup_imap, Hi; reflexivity | exact Hst].
Qed.

Lemma migrate_table_success_rows tbl sp tp B env r st :
  run (migrate_table tbl sp tp B) env new_frame = (Returned r, st) ->
  0 <= rows_migrated r /\
  (success r = true -> 0 < B ->
   rows_migrated r = Z.of_nat (length (source_rows (catalog env) sp tbl))).
Proof.
  intros Hrun. unfold source_rows.
  destruct (find_table (catalog env) (database sp) (schema sp) tbl) as [t|] eqn:Hfind.
  - destruct (migrate_table_found tbl sp tp B env t Hfind)
      as (k & st' & o & st1 & Hrun' & _ & _ & _ & Hrows & _ & _ & _ & Ho).
    rewrite Hrun in Hrun'. injection Hrun' as -> ->.
    split; [lia|]. intros Hok HB.
    destruct o as [[]|e| |]; try contradiction.
    + destruct Ho as (_ & _ & _ & _ & _ & Hall).
      destruct (Hall HB) as (Hk & _). rewrite Hk in Hrows.
      rewrite concat_chunks in Hrows by lia. exact Hrows.
    + destruct Ho as (Hs & _). congruence.
  - destruct (migrate_table_missing tbl sp tp B env Hfind)
      as (st' & e & st1 & Hrun' & _ & Hr & _).
    rewrite Hrun in Hrun'. injection Hrun' as -> ->.
    rewrite Hr. cbn. split; [lia|]. discriminate.
Qed.

Lemma success_count_length (results : list MigrationResult) :
  success_count results = Z.of_nat (length (List.filter success results)).
Proof.
  unfold success_count.
  induction (List.filter success results) as [|r rs IH]; [reflexivity|].
  cbn [List.map fold_right length]. rewrite IH. lia.
Qed.

(** X15. The summary of the application agrees with its details: the number
    of failed tables it shows is the number of errors it lists, and the
    tables and errors listed are those of the failed results. *)
Theorem summary_failures_are_the_errors_listed (results : list MigrationResult) :
  failed_count results = Z.of_nat (length (error_details results)) /\
  success_count results + failed_count results = Z.of_nat (length results) /\
  forall tbl e,
    (tbl, e) ∈ error_details results <->
    exists r, r ∈ results /\ success r = false /\ table r = tbl /\ error r = e.
Proof.
  split; [|split].
  - unfold failed_count, error_details. rewrite success_count_length, length_map.
    induction results as [|r rs IH]; [reflexivity|].
    cbn [List.filter length]. destruct (success r); cbn [negb length]; lia.
  - unfold failed_count. lia.
  - intros tbl e. unfold error_details. rewrite list_elem_of_In, in_map_iff. split.
    + intros (r & Hr & Hin). apply filter_In in Hin as [Hin Hs].
      exists r. rewrite list_elem_of_In. injection Hr as <- <-.
      repeat split; auto. now destruct (success r).
    + intros (r & Hin & Hs & <- & <-). exists r. split; [reflexivity|].
      apply filter_In. rewrite <- list_elem_of_In. split; [exact Hin|].
      now rewrite Hs.
Qed.

Lemma total_rows_cons (r : MigrationResult) (rs : list MigrationResult) :
  total_rows (r :: rs) = (if success r then rows_migrated r else 0) + total_rows rs.
Proof. unfold total_rows. cbn [List.filter]. destruct (success r); reflexivity. Qed.

(** X16. The total the summary shows counts the rows of the tables that
    succeeded, all of them (for a positive batch size, the rows those
    tables have in the source), and none of the rows that a failed copy
    had committed before it failed: it is at most the number of rows the
    run put in the target. *)
Theorem summary_total_counts_successes_only w sp tp B (selected : list string)
    (results : list MigrationResult) :
  0 < B ->
  migrate_selected w sp tp B 0 selected [] = Returned results ->
  total_rows results
  = fold_right Z.add 0
      (List.map (fun r => Z.of_nat (length (source_rows (source_account w) sp (table r))))
                (List.filter success results)) /\
  total_rows results <= fold_right Z.add 0 (List.map rows_migrated results).
Proof.
  intros HB Hrun. rewrite migrate_selected_spec in Hrun. injection Hrun as <-.
  cbn [app].
  match goal with |- context [total_rows ?l] => remember l as rs eqn:Hrs end.
  assert (Hall : forall r, r ∈ rs ->
            0 <= rows_migrated r /\
            (success r = true ->
             rows_migrated r
             = Z.of_nat (length (source_rows (source_account w) sp (table r))))).
  { intros r Hr. subst rs. apply elem_of_lookup_imap in Hr as (j & tbl & -> & _).
    destruct (task_result_run w sp tp B (0 + j) tbl) as [st Hst].
    destruct (migrate_table_success_rows _ _ _ _ _ _ _ Hst) as [Hpos Hrows].
    split; [exact Hpos|]. intros Hok. rewrite task_result_table. apply Hrows; assumption. }
  clear Hrs. induction rs as [|r rs IH].
  - split; [reflexivity | cbn; lia].
  - destruct IH as [IH1 IH2].
    { intros r' Hr'. apply Hall. now apply list_elem_of_further. }
    destruct (Hall r (list_elem_of_here _ _)) as [Hpos Hrows].
    rewrite total_rows_cons. cbn [List.filter List.map fold_right].
    destruct (success r) eqn:Hs.
    + cbn [List.map fold_right]. rewrite <- IH1, Hrows by reflexivity. split; lia.
    + rewrite <- IH1. split; lia.
Qed.

Lemma summary_total_counts_successes_only_witness :
  let rs := [ {| table := "ORDERS"; success := false; rows_migrated := 2;
                 error := Some "insert failed"%string; time_taken := Elapsed 0 1 |};
              {| table := "CUSTOMERS"; success := true; rows_migrated := 0;
                 error := None; time_taken := Elapsed 10 11 |} ] in
  (0 < 2 /\
   migrate_selected Scenario.world Scenario.source_profile Scenario.target_profile 2 0
     ["ORDERS"; "CUSTOMERS"]%string [] = Returned rs) /\
  total_rows rs
  = fold_right Z.add 0
      (List.map (fun r => Z.of_nat (length (source_rows (source_account Scenario.world)
                                              Scenario.source_profile (table r))))
                (List.filter success rs)) /\
  total_rows rs <= fold_right Z.add 0 (List.map rows_migrated rs).
Proof.
  cbv zeta. split; [split; [lia | vm_compute; reflexivity]|].
  apply (summary_total_counts_successes_only
           Scenario.world Scenario.source_profile Scenario.target_profile 2
           ["ORDERS"; "CUSTOMERS"]%string);
    [lia | vm_compute; reflexivity].
Defined.
